(** * A shallow embedding of the reactive core of flamingo.js (class Kiwi)

    The model covers [Observer] (property interception), [Template]
    (tokenizer, renderer and cache), the part of [EventEmitter] used for
    [dataChange] watchers, and the public API of [Kiwi] ($set, $get,
    $watch, $nextTick, $destroy) with the observer callback and
    [_renderTemplate].

    Modelling choices, all visible in the definitions below:
    - JS values are [val]; numbers are integers or NaN (no fractions, no -0);
      functions stored in data are constant: called with no argument they
      return or throw a fixed value; objects are plain objects whose
      prototype is Object.prototype (arrays are not modelled).
    - Objects live in a heap [gmap loc jsobj]; an object is the ordered list
      of its own properties (insertion order, as Object.keys gives it for
      non-index keys).  A property is a plain data property, an accessor
      installed by [Observer.observe] (its closure cell is the value), or a
      getter installed by [_setupComputed].
    - Exceptions are [exn]; JS code runs in the state and exception monad
      [M] over [world].
    - Lifecycle hooks are absent (options.created, beforeUpdate, ... are
      null), so their [isFunction] tests are false.
    - Watcher callbacks and nextTick callbacks are user code; a watcher
      callback is recorded in the [trace] when it is called and does
      nothing else. *)

From Stdlib Require Import ZArith Ascii.
From Stdlib Require String.
From stdpp Require Import base gmap strings list.

Open Scope Z_scope.

Definition loc := positive.

(** ** JS values *)

Inductive val : Type :=
| VUndef
| VNull
| VBool (b : bool)
| VNum (n : Z)
| VNaN
| VStr (s : string)
| VRef (l : loc)
(** a user function: identity [fid], source text [src]; called with no
    argument it throws [result] when [throws] is set, returns it otherwise *)
| VFun (fid : nat) (src : string) (throws : bool) (result : val)
(** a built-in method of Object.prototype, by name *)
| VBuiltin (name : string).

(** [a === b] *)
Definition strict_eq (a b : val) : bool :=
  match a, b with
  | VUndef, VUndef => true
  | VNull, VNull => true
  | VBool x, VBool y => Bool.eqb x y
  | VNum x, VNum y => Z.eqb x y
  | VStr x, VStr y => String.eqb x y
  | VRef x, VRef y => Pos.eqb x y
  | VFun f _ _ _, VFun g _ _ _ => Nat.eqb f g
  | VBuiltin x, VBuiltin y => String.eqb x y
  | _, _ => false   (* NaN !== NaN, and values of different types *)
  end.

(** [utils.isObject]: [obj !== null && typeof obj === 'object'] *)
Definition is_object (v : val) : bool :=
  match v with VRef _ => true | _ => false end.

(** Thrown values: an Error object of the engine (name, message) or any
    value thrown by user code. *)
Inductive exn : Type :=
| XError (name msg : string)
| XValue (v : val)
(** behaviour of the host outside this model *)
| XUnmodelled (what : string).

Definition type_error (msg : string) : exn := XError "TypeError" msg.

Inductive outcome (A : Type) : Type :=
| Ok (a : A)
| Exn (x : exn).
Arguments Ok {A} a.
Arguments Exn {A} x.

(** ** Objects and the heap *)

Definition getter := (string -> val) -> val.

Inductive prop : Type :=
| PData (v : val)
| PAccessor (v : val)   (* Observer accessor; [v] is the closure cell [value] *)
| PGetter (g : getter). (* computed getter: [getter.call(this)] *)

Definition jsobj := list (string * prop).

Fixpoint own_prop (o : jsobj) (k : string) : option prop :=
  match o with
  | [] => None
  | (k', p) :: o' => if String.eqb k k' then Some p else own_prop o' k
  end.

(** replace the own property [k] in place, or append it (defineProperty and
    assignment keep the position of an existing key) *)
Fixpoint set_own (o : jsobj) (k : string) (p : prop) : jsobj :=
  match o with
  | [] => [(k, p)]
  | (k', p') :: o' =>
      if String.eqb k k' then (k', p) :: o' else (k', p') :: set_own o' k p
  end.

Definition own_keys (o : jsobj) : list string := map fst o.

(** Object.prototype, reached by [__proto__] *)
Definition object_prototype : loc := 1%positive.

Definition object_prototype_methods : list string :=
  ["constructor"; "__defineGetter__"; "__defineSetter__"; "hasOwnProperty";
   "__lookupGetter__"; "__lookupSetter__"; "isPrototypeOf";
   "propertyIsEnumerable"; "toString"; "valueOf"; "toLocaleString"].

(** properties a plain object inherits from Object.prototype *)
Definition proto_member (k : string) : option val :=
  if String.eqb k "__proto__" then Some (VRef object_prototype)
  else if existsb (String.eqb k) object_prototype_methods then Some (VBuiltin k)
  else None.

(** ** The component state *)

Record watcher := mkWatcher { wid : nat; wkey : string; wcb : nat }.

(** the render closure produced by [Template.compile] *)
Inductive token := TText (s : string) | TExpr (e : string).
Record renderer := mkRenderer { rid : nat; rtokens : list token }.

Inductive effect :=
| EWatch (cb : nat) (newv oldv : val)   (* a watcher callback was called *)
| EHtml (html : string)                 (* [this.el.innerHTML = html] *)
| EChange (k : string) (newv oldv : val). (* a recording observer callback was called *)

Record kopts := mkOpts { template : option string }.

Record world := mkWorld {
  heap : gmap loc jsobj;
  next : nat;                                (* identities of fresh closures *)
  kdata : option loc;                        (* this.data *)
  kcomputed : option loc;                    (* this.computed *)
  options : option kopts;                    (* this.options *)
  el : option string;                        (* this.el, by its innerHTML *)
  engine : option (gmap string renderer);    (* this.templateEngine.cache *)
  events : list (string * list watcher);     (* this._events *)
  tasks : list nat;                          (* pending nextTick callbacks *)
  trace : list effect;
  console : list string                      (* console.error / console.warn *)
}.

(** ** The state and exception monad *)

Definition M (A : Type) : Type := world -> outcome A * world.

Global Instance M_ret : MRet M := fun A a w => (Ok a, w).
Global Instance M_bind : MBind M := fun A B f m w =>
  match m w with
  | (Ok a, w') => f a w'
  | (Exn x, w') => (Exn x, w')
  end.

Definition throw {A} (x : exn) : M A := fun w => (Exn x, w).
Definition get_world : M world := fun w => (Ok w, w).
Definition modify (f : world -> world) : M unit := fun w => (Ok tt, f w).

Definition with_heap (h : gmap loc jsobj) (w : world) : world :=
  {| heap := h; next := next w; kdata := kdata w; kcomputed := kcomputed w;
     options := options w; el := el w; engine := engine w; events := events w;
     tasks := tasks w; trace := trace w; console := console w |}.
Definition with_next (n : nat) (w : world) : world :=
  {| heap := heap w; next := n; kdata := kdata w; kcomputed := kcomputed w;
     options := options w; el := el w; engine := engine w; events := events w;
     tasks := tasks w; trace := trace w; console := console w |}.
Definition with_el (e : option string) (w : world) : world :=
  {| heap := heap w; next := next w; kdata := kdata w; kcomputed := kcomputed w;
     options := options w; el := e; engine := engine w; events := events w;
     tasks := tasks w; trace := trace w; console := console w |}.
Definition with_engine (c : option (gmap string renderer)) (w : world) : world :=
  {| heap := heap w; next := next w; kdata := kdata w; kcomputed := kcomputed w;
     options := options w; el := el w; engine := c; events := events w;
     tasks := tasks w; trace := trace w; console := console w |}.
Definition with_events (ev : list (string * list watcher)) (w : world) : world :=
  {| heap := heap w; next := next w; kdata := kdata w; kcomputed := kcomputed w;
     options := options w; el := el w; engine := engine w; events := ev;
     tasks := tasks w; trace := trace w; console := console w |}.
Definition with_tasks (t : list nat) (w : world) : world :=
  {| heap := heap w; next := next w; kdata := kdata w; kcomputed := kcomputed w;
     options := options w; el := el w; engine := engine w; events := events w;
     tasks := t; trace := trace w; console := console w |}.
Definition with_trace (t : list effect) (w : world) : world :=
  {| heap := heap w; next := next w; kdata := kdata w; kcomputed := kcomputed w;
     options := options w; el := el w; engine := engine w; events := events w;
     tasks := tasks w; trace := t; console := console w |}.
Definition with_console (c : list string) (w : world) : world :=
  {| heap := heap w; next := next w; kdata := kdata w; kcomputed := kcomputed w;
     options := options w; el := el w; engine := engine w; events := events w;
     tasks := tasks w; trace := trace w; console := c |}.

(** ** Reading properties and converting to strings *)

Definition obj_of (w : world) (l : loc) : jsobj := default [] (heap w !! l).

(** [this[k]] inside a computed getter: the instance proxies
    [this.data[key]] for every data key *)
Definition inst_read (w : world) (k : string) : val :=
  match kdata w with
  | Some d =>
      match own_prop (obj_of w d) k with
      | Some (PData v) | Some (PAccessor v) => v
      | _ => VUndef
      end
  | None => VUndef
  end.

(** [obj[k]] for the object at [l] ([[Get]] with the prototype chain) *)
Definition read (w : world) (l : loc) (k : string) : val :=
  match own_prop (obj_of w l) k with
  | Some (PData v) | Some (PAccessor v) => v
  | Some (PGetter g) => g (inst_read w)
  | None => default VUndef (proto_member k)
  end.

Fixpoint digits_of (fuel : nat) (n : N) (acc : string) : string :=
  match fuel with
  | O => acc
  | S f =>
      let acc' := String.String (Ascii.ascii_of_N (48 + N.modulo n 10)) acc in
      if N.ltb n 10 then acc' else digits_of f (N.div n 10) acc'
  end.

Definition N_to_string (n : N) : string := digits_of (S (N.size_nat n)) n String.EmptyString.

(** Number::toString on integers *)
Definition num_to_string (z : Z) : string :=
  match z with
  | Z0 => "0"
  | Zpos p => N_to_string (Npos p)
  | Zneg p => "-" +:+ N_to_string (Npos p)
  end.

(** ToString of a value that is not an object *)
Definition prim_to_string (v : val) : string :=
  match v with
  | VUndef => "undefined"
  | VNull => "null"
  | VBool true => "true"
  | VBool false => "false"
  | VNum n => num_to_string n
  | VNaN => "NaN"
  | VStr s => s
  | VRef _ => "[object Object]"
  | VFun _ src _ _ => src
  | VBuiltin n =>
      (* Object.prototype.constructor is the function Object *)
      if String.eqb n "constructor" then "function Object() { [native code] }"
      else "function " +:+ n +:+ "() { [native code] }"
  end.

(** calling a conversion method [f] with receiver [this]; [None] when [f]
    is not callable *)
Definition call_method (this : loc) (f : val) : option (outcome val) :=
  match f with
  | VFun _ _ true r => Some (Exn (XValue r))
  | VFun _ _ false r => Some (Ok r)
  | VBuiltin m =>
      if String.eqb m "toString" then Some (Ok (VStr "[object Object]"))
      else if String.eqb m "valueOf" then Some (Ok (VRef this))
      else Some (Exn (XUnmodelled ("Object.prototype." +:+ m +:+ " as a conversion method")))
  | _ => None
  end.

(** ToString, with OrdinaryToPrimitive(hint string) on objects *)
Definition to_string (w : world) (v : val) : outcome string :=
  match v with
  | VRef l =>
      let attempt (m : string) (otherwise : outcome string) :=
        match call_method l (read w l m) with
        | Some (Ok r) => if is_object r then otherwise else Ok (prim_to_string r)
        | Some (Exn x) => Exn x
        | None => otherwise
        end in
      attempt "toString"
        (attempt "valueOf" (Exn (type_error "Cannot convert object to primitive value")))
  | _ => Ok (prim_to_string v)
  end.

(** ** Observer *)

(** the engine's call stack, counted in nested [observe] calls *)
Definition stack_limit : nat := 200.

Definition stack_overflow : exn := XError "RangeError" "Maximum call stack size exceeded".

Definition get_obj (l : loc) : M jsobj := w ← get_world; mret (obj_of w l).

(** [Object.defineProperty(obj, key, ...)], or the update of an existing
    property in place *)
Definition define_prop (l : loc) (k : string) (p : prop) : M unit :=
  modify (fun w => with_heap (<[l := set_own (obj_of w l) k p]> (heap w)) w).

(** [Observer.observe(obj)] *)
Fixpoint observe (fuel : nat) (v : val) : M unit :=
  match v with
  | VRef l =>
      match fuel with
      | O => throw stack_overflow
      | S fuel' =>
          o ← get_obj l;
          (fix each (ks : list string) : M unit :=
             match ks with
             | [] => mret ()
             | k :: ks' =>
                 w ← get_world;
                 let value := read w l k in
                 (if is_object value then observe fuel' value else mret ()) ;;
                 define_prop l k (PAccessor value) ;;
                 each ks'
             end) (own_keys o)
      end
  | _ => mret ()   (* if (!utils.isObject(obj)) return; *)
  end.

(** the callback an [Observer] was constructed with *)
Definition observer_cb := string -> val -> val -> M unit.

(** [obj[k] = v] ([[Set]]): the accessor installed by [observe] runs its
    setter; a plain data property is overwritten or created. *)
Definition put (cb : observer_cb) (l : loc) (k : string) (v : val) : M unit :=
  o ← get_obj l;
  match own_prop o k with
  | Some (PAccessor old) =>
      if strict_eq old v then mret ()            (* if (value === newValue) return; *)
      else
        define_prop l k (PAccessor v) ;;         (* value = newValue; *)
        (if is_object v then observe stack_limit v else mret ()) ;;
        cb k v old                               (* this.callback(key, newValue, oldValue) *)
  | Some (PGetter _) =>
      throw (type_error ("Cannot set property " +:+ k +:+ " of #<Object> which has only a getter"))
  | Some (PData _) => define_prop l k (PData v)
  | None =>
      if String.eqb k "__proto__" then throw (XUnmodelled "assignment to __proto__")
      else define_prop l k (PData v)
  end.

(** an observer callback that records each call *)
Definition record_change : observer_cb := fun k nv ov => 
  modify (fun w => with_trace (trace w ++ [EChange k nv ov]) w).

(** ** EventEmitter, event [dataChange] *)

Fixpoint assoc_get {A} (k : string) (l : list (string * A)) : option A :=
  match l with
  | [] => None
  | (k', x) :: l' => if String.eqb k k' then Some x else assoc_get k l'
  end.

Fixpoint assoc_set {A} (k : string) (x : A) (l : list (string * A)) : list (string * A) :=
  match l with
  | [] => [(k, x)]
  | (k', y) :: l' => if String.eqb k k' then (k', x) :: l' else (k', y) :: assoc_set k x l'
  end.

Definition max_listeners : nat := 10.

(** the double quote character, code 34 *)
Definition dq : string := String.String (Ascii.ascii_of_nat 34) String.EmptyString.

Definition push_trace (e : effect) : M unit :=
  modify (fun w => with_trace (trace w ++ [e]) w).

Definition log_console (msg : string) : M unit :=
  modify (fun w => with_console (console w ++ [msg]) w).

(** [on('dataChange', watcher)] *)
Definition on_data_change (x : watcher) : M unit :=
  w ← get_world;
  let ls := default [] (assoc_get "dataChange" (events w)) in
  (if (max_listeners <=? length ls)%nat
   then log_console ("Warning: Event " +:+ dq +:+ "dataChange" +:+ dq +:+
                     " has exceeded the maximum number of listeners (10).")
   else mret ()) ;;
  modify (fun w => with_events (assoc_set "dataChange" (ls ++ [x]) (events w)) w).

(** [off('dataChange', watcher)]: filter by closure identity *)
Definition off_data_change (i : nat) : M unit :=
  w ← get_world;
  match assoc_get "dataChange" (events w) with
  | None => mret ()
  | Some ls =>
      modify (fun w => with_events
        (assoc_set "dataChange" (filter (fun x => negb (Nat.eqb (wid x) i)) ls) (events w)) w)
  end.

(** the watcher closure of [$watch]: [if (changedKey === key) callback.call(...)] *)
Definition call_watcher (changed : string) (nv ov : val) (x : watcher) : M unit :=
  if String.eqb changed (wkey x) then push_trace (EWatch (wcb x) nv ov) else mret ().

Fixpoint call_all (changed : string) (nv ov : val) (ls : list watcher) : M unit :=
  match ls with
  | [] => mret ()
  | x :: ls' => call_watcher changed nv ov x ;; call_all changed nv ov ls'
  end.

(** [emit('dataChange', key, newValue, oldValue)] *)
Definition emit_data_change (k : string) (nv ov : val) : M bool :=
  w ← get_world;
  match assoc_get "dataChange" (events w) with
  | None => mret false
  | Some ls => call_all k nv ov ls ;; mret true
  end.

(** ** Template: the tokenizer *)

(** [\s] and the characters [trim] removes, on Latin-1 code units *)
Definition is_ws (c : ascii) : bool :=
  let n := Ascii.nat_of_ascii c in
  (n =? 9)%nat || (n =? 10)%nat || (n =? 11)%nat || (n =? 12)%nat ||
  (n =? 13)%nat || (n =? 32)%nat || (n =? 160)%nat.

(** [.] matches every character but a line terminator *)
Definition is_line_terminator (c : ascii) : bool :=
  let n := Ascii.nat_of_ascii c in (n =? 10)%nat || (n =? 13)%nat.

Fixpoint lead_count (p : ascii -> bool) (s : list ascii) : nat :=
  match s with
  | c :: s' => if p c then S (lead_count p s') else O
  | [] => O
  end.

Fixpoint strip_prefix (pre s : list ascii) : option (list ascii) :=
  match pre, s with
  | [], _ => Some s
  | c :: pre', c' :: s' => if Ascii.eqb c c' then strip_prefix pre' s' else None
  | _ :: _, [] => None
  end.

Fixpoint first_some {A} (f : nat -> option A) (ns : list nat) : option A :=
  match ns with
  | [] => None
  | n :: ns' => match f n with Some a => Some a | None => first_some f ns' end
  end.

(** the choices of a greedy [\s*] on [s], most first *)
Definition greedy_ws (s : list ascii) : list nat := rev (seq 0 (S (lead_count is_ws s))).

(** [new RegExp(d0 + '\\s*(.+?)\\s*' + d1)] tried at the start of [s], with
    the backtracking order of the regex engine: greedy [\s*], then lazy
    [(.+?)], then greedy [\s*], then the closing delimiter.  Result: the
    capture [match[1]] and the text after the match. *)
Definition match_at (d0 d1 s : list ascii) : option (list ascii * list ascii) :=
  s1 ← strip_prefix d0 s;
  first_some (fun j =>
    let s2 := drop j s1 in
    first_some (fun n =>
      let cap := take n s2 in
      let s3 := drop n s2 in
      first_some (fun j' =>
        rest ← strip_prefix d1 (drop j' s3); Some (cap, rest))
        (greedy_ws s3))
      (seq 1 (lead_count (fun c => negb (is_line_terminator c)) s2)))
    (greedy_ws s1).

Definition trim_ascii (s : list ascii) : list ascii :=
  rev (drop (lead_count is_ws (rev (drop (lead_count is_ws s) s)))
            (rev (drop (lead_count is_ws s) s))).

Definition str (s : list ascii) : string := String.string_of_list_ascii s.

(** the [while ((match = pattern.exec(template)) !== null)] loop:
    [pending] is the text since [lastIndex], reversed; [fuel] bounds the
    iterations, each of which consumes a character *)
Fixpoint scan (fuel : nat) (d0 d1 pending s : list ascii) : list token :=
  let text := match pending with [] => [] | _ => [TText (str (rev pending))] end in
  match fuel with
  | O => text
  | S f =>
      match s with
      | [] => text                       (* if (lastIndex < template.length) ... *)
      | c :: s' =>
          match match_at d0 d1 s with
          | Some (cap, rest) =>
              text ++ TExpr (str (trim_ascii cap)) :: scan f d0 d1 [] rest
          | None => scan f d0 d1 (c :: pending) s'
          end
      end
  end.

(** default options: [delimiters: ['{{', '}}']], [escape: true], so the
    delimiters are matched literally *)
Definition delim_open : list ascii := String.list_ascii_of_string "{{".
Definition delim_close : list ascii := String.list_ascii_of_string "}}".

Definition tokenize (t : string) : list token :=
  let s := String.list_ascii_of_string t in
  scan (S (length s)) delim_open delim_close [] s.

(** ** Template: rendering *)

Section Host.

(** The host engine's evaluation of one expression:
    [new Function('data', `with(data) { return ${expr}; }`)(data)] with
    [data] the object at the given location.  Template expressions are
    taken to be free of side effects: the result depends on the state only. *)
Variable eval_expr : world -> loc -> string -> outcome val.

(** [`Template error: ${e.message}`] inside [catch (e)] *)
Definition exn_message (w : world) (x : exn) : outcome string :=
  match x with
  | XError _ msg => Ok msg
  | XValue VUndef => Exn (type_error "Cannot read properties of undefined (reading 'message')")
  | XValue VNull => Exn (type_error "Cannot read properties of null (reading 'message')")
  | XValue (VRef l) => to_string w (read w l "message")
  | XValue _ => Ok "undefined"
  | XUnmodelled s => Exn (XUnmodelled s)
  end.

(** the callback of [tokens.map] in the render closure *)
Definition eval_token (ctx : loc) (t : token) : M val :=
  match t with
  | TText s => mret (VStr s)
  | TExpr e =>
      w ← get_world;
      match eval_expr w ctx e with
      | Ok v => mret (if strict_eq v VUndef then VStr String.EmptyString else v)
      | Exn x =>
          match exn_message w x with
          | Ok m => log_console ("Template error: " +:+ m) ;; mret (VStr String.EmptyString)
          | Exn y => throw y
          end
      end
  end.

Fixpoint map_tokens (ctx : loc) (ts : list token) : M (list val) :=
  match ts with
  | [] => mret []
  | t :: ts' => v ← eval_token ctx t; vs ← map_tokens ctx ts'; mret (v :: vs)
  end.

(** [.join('')]: undefined and null become empty, the rest goes through
    ToString *)
Fixpoint join_all (w : world) (vs : list val) : outcome string :=
  match vs with
  | [] => Ok String.EmptyString
  | v :: vs' =>
      let piece := match v with
                   | VUndef | VNull => Ok String.EmptyString
                   | _ => to_string w v
                   end in
      match piece with
      | Exn x => Exn x
      | Ok s => match join_all w vs' with Ok r => Ok (s +:+ r) | Exn x => Exn x end
      end
  end.

Definition run_renderer (r : renderer) (ctx : loc) : M val :=
  vs ← map_tokens ctx (rtokens r);
  w ← get_world;
  match join_all w vs with
  | Ok s => mret (VStr s)
  | Exn x => throw x
  end.

(** what [this.cache[template]] can hold: a render closure, or a member
    the cache object inherits from Object.prototype *)
Inductive cached := CRenderer (r : renderer) | CInherited (v : val).

(** [Template.compile(template)] *)
Definition compile (t : string) : M cached :=
  w ← get_world;
  match engine w with
  | None => throw (type_error "Cannot read properties of null (reading 'render')")
  | Some cache =>
      match cache !! t with
      | Some r => mret (CRenderer r)                  (* if (this.cache[template]) *)
      | None =>
          match proto_member t with
          | Some v => mret (CInherited v)             (* an inherited, truthy member *)
          | None =>
              let r := mkRenderer (next w) (tokenize t) in
              modify (fun w => with_next (S (next w))
                                 (with_engine (Some (<[t := r]> cache)) w)) ;;
              mret (CRenderer r)
          end
      end
  end.

(** [renderFn(data)]; an inherited method of Object.prototype is called
    with [this] undefined and the argument [data] *)
Definition call_cached (c : cached) (ctx : loc) : M val :=
  match c with
  | CRenderer r => run_renderer r ctx
  | CInherited (VBuiltin m) =>
      if String.eqb m "toString" then mret (VStr "[object Undefined]")
      else if String.eqb m "constructor" then mret (VRef ctx)       (* Object(data) *)
      else if String.eqb m "toLocaleString" then
        throw (type_error "Object.prototype.toLocaleString called on null or undefined")
      else if String.eqb m "hasOwnProperty" || String.eqb m "propertyIsEnumerable" then
        (* ToPropertyKey(data) comes before ToObject(this) *)
        w ← get_world;
        match to_string w (VRef ctx) with
        | Ok _ => throw (type_error "Cannot convert undefined or null to object")
        | Exn x => throw x
        end
      else throw (type_error "Cannot convert undefined or null to object")
  | CInherited _ => throw (type_error "renderFn is not a function")
  end.

(** [Template.render(template, data)] *)
Definition template_render (t : string) (ctx : loc) : M val :=
  c ← compile t; call_cached c ctx.


(** ** Kiwi *)

(** [{}]: a fresh object *)
Definition alloc (o : jsobj) : M loc :=
  w ← get_world;
  let l := fresh (dom (heap w) ∪ {[object_prototype]}) in
  modify (with_heap (<[l := o]> (heap w))) ;;
  mret l.

(** the body of [for (let key in source)] in [utils.extend(target, source)]
    over the keys [ks] *)
Fixpoint extend_keys (t s : loc) (ks : list string) : M unit :=
  match ks with
  | [] => mret ()
  | k :: ks' =>
      w ← get_world;
      if negb (strict_eq (read w s "hasOwnProperty") (VBuiltin "hasOwnProperty"))
      then throw (XUnmodelled "source.hasOwnProperty other than Object.prototype.hasOwnProperty")
      else if is_object (read w s k) && is_object (read w t k)
      then throw (XUnmodelled "utils.extend: recursive merge into an existing container")
      else if String.eqb k "__proto__" then throw (XUnmodelled "assignment to __proto__")
      else define_prop t k (PData (read w s k)) ;;   (* target[key] = source[key] *)
           extend_keys t s ks'
  end.

(** one source of [utils.extend(target, source)] where [target] is the
    fresh object [{}] of [_renderTemplate]; [None] is a null source, over
    which [for ... in] does nothing *)
Definition extend_into (t : loc) (src : option loc) : M unit :=
  match src with
  | None => mret ()
  | Some s => o ← get_obj s; extend_keys t s (own_keys o)
  end.

Definition template_truthy (o : kopts) : bool :=
  match template o with
  | None => false
  | Some t => negb (String.eqb t String.EmptyString)
  end.

(** [utils.extend({}, this.data, this.computed)] *)
Definition template_data : M loc :=
  w ← get_world;
  ctx ← alloc [];
  extend_into ctx (kdata w) ;;
  extend_into ctx (kcomputed w) ;;
  mret ctx.

(** [Kiwi._renderTemplate()] *)
Definition render_template : M unit :=
  w ← get_world;
  match el w with
  | None => mret ()                                    (* if (!this.el ...) return; *)
  | Some _ =>
      match options w with
      | None => throw (type_error "Cannot read properties of null (reading 'template')")
      | Some o =>
          match template o with
          | Some t =>
              if String.eqb t String.EmptyString then mret () else
              ctx ← template_data;
              html ← template_render t ctx;
              w' ← get_world;
              match to_string w' html with
              | Ok s => modify (with_el (Some s)) ;; push_trace (EHtml s)
              | Exn x => throw x
              end
          | None => mret ()
          end
      end
  end.

(** the callback given to [new Observer(this.data, ...)] *)
Definition kiwi_callback : observer_cb := fun k nv ov =>
  emit_data_change k nv ov ;;
  w ← get_world;
  match options w with
  | None => throw (type_error "Cannot read properties of null (reading 'beforeUpdate')")
  | Some o =>
      (* beforeUpdate and updated are not functions *)
      if template_truthy o && bool_decide (el w ≠ None) then render_template else mret ()
  end.

(** [this.data[key]] where [this.data] may have been released *)
Definition need_data (k : string) : M loc :=
  w ← get_world;
  match kdata w with
  | Some d => mret d
  | None => throw (type_error ("Cannot read properties of null (reading '" +:+ k +:+ "')"))
  end.

(** [$set(key, value)] for a string key *)
Definition kiwi_set (k : string) (v : val) : M unit :=
  d ← need_data k;
  w ← get_world;
  if strict_eq (read w d k) VUndef then
    (* Add new property *)
    put kiwi_callback d k v ;;
    observe stack_limit (VRef d)      (* this.observer.observe(this.data) *)
    (* the proxy defined on the instance is not observable here *)
  else
    put kiwi_callback d k v.          (* Update existing property *)

(** [$set(mapping)]: [utils.each] over the mapping's own keys, in order *)
Fixpoint kiwi_set_many (kvs : list (string * val)) : M unit :=
  match kvs with
  | [] => mret ()
  | (k, v) :: kvs' => kiwi_set k v ;; kiwi_set_many kvs'
  end.

(** [$get(key)]: [key ? this.data[key] : this.data] *)
Definition kiwi_get (k : option string) : M val :=
  let whole := w ← get_world;
               mret (match kdata w with Some d => VRef d | None => VNull end) in
  match k with
  | Some k' =>
      if String.eqb k' String.EmptyString then whole
      else d ← need_data k'; w ← get_world; mret (read w d k')
  | None => whole
  end.

(** [$watch(key, callback)] for a string key; the result identifies the
    returned unwatch closure, i.e. the registered watcher closure *)
Definition kiwi_watch (k : string) (cb : nat) : M nat :=
  w ← get_world;
  let i := next w in
  modify (with_next (S i)) ;;
  on_data_change (mkWatcher i k cb) ;;
  mret i.

(** calling the unwatch closure of the watcher [i] *)
Definition kiwi_unwatch (i : nat) : M unit := off_data_change i.

(** [$nextTick(callback)]: a [setTimeout(..., 0)] task; the promise is
    returned at once *)
Definition kiwi_next_tick (cb : nat) : M unit :=
  modify (fun w => with_tasks (tasks w ++ [cb]) w).

(** [$destroy()] with no beforeDestroy or destroyed hook *)
Definition kiwi_destroy : M unit :=
  modify (fun w =>
    {| heap := heap w; next := next w; kdata := None; kcomputed := None;
       options := None; el := None; engine := None; events := [];
       tasks := tasks w; trace := trace w; console := console w |}).

(** [new Kiwi(options)], from the empty component state [w0] whose heap
    holds the nested containers of the initial data *)
Fixpoint define_all (l : loc) (ps : list (string * prop)) : M unit :=
  match ps with
  | [] => mret ()
  | (k, p) :: ps' => define_prop l k p ;; define_all l ps'
  end.

Fixpoint watch_all (ws : list (string * nat)) : M unit :=
  match ws with
  | [] => mret ()
  | (k, cb) :: ws' => _ ← kiwi_watch k cb; watch_all ws'
  end.

Definition kiwi_new (data0 : list (string * val)) (computed0 : list (string * getter))
    (watch0 : list (string * nat)) (tpl : option string) (el0 : option string) : M unit :=
  d ← alloc [];                                       (* this.data = {} *)
  c ← alloc [];                                       (* this.computed = {} *)
  modify (fun w =>
    {| heap := heap w; next := next w; kdata := Some d; kcomputed := Some c;
       options := Some (mkOpts tpl); el := el0; engine := Some ∅;
       events := events w; tasks := tasks w; trace := trace w;
       console := console w |}) ;;
  define_all c (map (fun kg => (kg.1, PGetter kg.2)) computed0) ;;   (* _setupComputed *)
  define_all d (map (fun kv => (kv.1, PData kv.2)) data0) ;;        (* utils.extend(this.data, ...) *)
  observe stack_limit (VRef d) ;;                                    (* new Observer(...) *)
  watch_all watch0 ;;                                                (* _setupWatchers *)
  w ← get_world;
  match options w with
  | Some o => if template_truthy o && bool_decide (el w ≠ None) then render_template else mret ()
  | None => mret ()
  end.

End Host.

(** ** The host evaluator on a fragment of JS expressions

    [js_eval] evaluates the trimmed text of an expression token the way
    [new Function('data', `with(data) { return ${expr}; }`)(data)] does,
    for the empty expression, [null], [true], [false], decimal integer
    literals, identifiers and zero-argument calls [f()].  An identifier is
    resolved through the scope chain of that function: the [with] object
    (own properties of [data], then those it inherits from
    Object.prototype), the parameter [data], then the global object, of
    which only [undefined] and [NaN] are modelled.  Any other text is
    reported as [XUnmodelled]. *)

Definition is_ident_start (c : ascii) : bool :=
  let n := Ascii.nat_of_ascii c in
  ((65 <=? n) && (n <=? 90))%nat || ((97 <=? n) && (n <=? 122))%nat ||
  (n =? 95)%nat || (n =? 36)%nat.

Definition is_digit (c : ascii) : bool :=
  let n := Ascii.nat_of_ascii c in ((48 <=? n) && (n <=? 57))%nat.

Definition is_identifier (s : list ascii) : bool :=
  match s with
  | c :: s' => is_ident_start c && forallb (fun c => is_ident_start c || is_digit c) s'
  | [] => false
  end.

Definition is_decimal (s : list ascii) : bool :=
  match s with
  | [c] => is_digit c
  | c :: _ => is_digit c && negb (Ascii.eqb c "0"%char) && forallb is_digit s
  | [] => false
  end.

Definition decimal_value (s : list ascii) : Z :=
  fold_left (fun acc c => acc * 10 + (Z.of_nat (Ascii.nat_of_ascii c) - 48)) s 0.

Definition reserved_words : list string :=
  ["this"; "arguments"; "new"; "typeof"; "void"; "delete"; "function"; "class";
   "if"; "else"; "return"; "var"; "let"; "const"; "in"; "instanceof"; "do";
   "while"; "for"; "switch"; "case"; "default"; "break"; "continue"; "throw";
   "try"; "catch"; "finally"; "with"; "yield"; "await"; "super"; "import";
   "export"; "debugger"; "enum"].

(** [x in data] for the [with] object *)
Definition has_property (w : world) (l : loc) (x : string) : bool :=
  match own_prop (obj_of w l) x with
  | Some _ => true
  | None => match proto_member x with Some _ => true | None => false end
  end.

Definition resolve (w : world) (ctx : loc) (x : string) : outcome val :=
  if has_property w ctx x then Ok (read w ctx x)
  else if String.eqb x "data" then Ok (VRef ctx)
  else if String.eqb x "undefined" then Ok VUndef
  else if String.eqb x "NaN" then Ok VNaN
  else Exn (XError "ReferenceError" (x +:+ " is not defined")).

Definition eval_name (w : world) (ctx : loc) (x : string) : outcome val :=
  if String.eqb x "null" then Ok VNull
  else if String.eqb x "true" then Ok (VBool true)
  else if String.eqb x "false" then Ok (VBool false)
  else if existsb (String.eqb x) reserved_words then Exn (XUnmodelled x)
  else resolve w ctx x.

Definition js_eval (w : world) (ctx : loc) (e : string) : outcome val :=
  let s := String.list_ascii_of_string e in
  if String.eqb e String.EmptyString then Ok VUndef          (* return ; *)
  else if is_decimal s then Ok (VNum (decimal_value s))
  else if is_identifier s then eval_name w ctx e
  else
    let n := length s in
    if (2 <=? n)%nat && is_identifier (take (n - 2) s) &&
       String.eqb (str (drop (n - 2) s)) "()"
    then
      let f := str (take (n - 2) s) in
      match eval_name w ctx f with
      | Ok (VFun _ _ throws r) => if throws then Exn (XValue r) else Ok r
      | Ok (VBuiltin m) => Exn (XUnmodelled ("Object.prototype." +:+ m +:+ " called as a function"))
      | Ok _ => Exn (type_error (f +:+ " is not a function"))
      | Exn x => Exn x
      end
    else Exn (XUnmodelled e).

(** the state before [new Kiwi(...)], with the nested containers [h] *)
Definition empty_world (h : gmap loc jsobj) : world :=
  {| heap := h; next := 0; kdata := None; kcomputed := None; options := None;
     el := None; engine := None; events := []; tasks := []; trace := [];
     console := [] |}.

Definition run {A} (m : M A) (w : world) : outcome A * world := m w.

(** the [dataChange] listeners *)
Definition listeners (w : world) : list watcher :=
  default [] (assoc_get "dataChange" (events w)).

(** the watcher calls [emit('dataChange', k, nv, ov)] makes *)
Definition watcher_calls (ls : list watcher) (k : string) (nv ov : val) : list effect :=
  map (fun x => EWatch (wcb x) nv ov) (filter (fun x => String.eqb k (wkey x)) ls).

(** ** What [observe] does to the heap

    [observe] only turns properties it visits into accessors: a data
    property keeps its value, a getter is replaced by an accessor holding
    the value it returned, an accessor is left as it is.  No property is
    added or removed and nothing but the heap changes. *)
Definition prop_le (p p' : prop) : Prop :=
  p' = p \/ (exists x, p = PData x /\ p' = PAccessor x) \/
  (exists g x, p = PGetter g /\ p' = PAccessor x).

Definition obj_le : jsobj -> jsobj -> Prop :=
  Forall2 (fun a b => a.1 = b.1 /\ prop_le a.2 b.2).

Definition heap_le (h h' : gmap loc jsobj) : Prop :=
  forall l, match h !! l, h' !! l with
            | Some o, Some o' => obj_le o o'
            | None, None => True
            | _, _ => False
            end.

Definition world_le (w w' : world) : Prop :=
  heap_le (heap w) (heap w') /\ w' = with_heap (heap w') w.

(** the store of the accessor's setter, before the instrumentation of the
    new value and the callback *)
Definition store_cell (l : loc) (k : string) (v : val) (w : world) : world :=
  with_heap (<[l := set_own (obj_of w l) k (PAccessor v)]> (heap w)) w.

(** ** Circular containers

    The object at [l] links into the object at [l'] when one of its own
    data or accessor properties holds [l']; a list of objects is circular
    when each links into the next and the last into the first. *)
Definition links_into (w : world) (l l' : loc) : bool :=
  existsb (fun k => match own_prop (obj_of w l) k with
                    | Some (PData (VRef x)) | Some (PAccessor (VRef x)) => Pos.eqb x l'
                    | _ => false
                    end) (own_keys (obj_of w l)).

Fixpoint chain (w : world) (x : loc) (r : list loc) (l0 : loc) : bool :=
  match r with
  | [] => links_into w x l0
  | y :: r' => links_into w x y && chain w y r' l0
  end.

Definition circular (w : world) (ls : list loc) : bool :=
  match ls with
  | [] => false
  | x :: r => chain w x r x
  end.

(** ** What rendering leaves alone

    Rendering writes to one object of its own, the render context [x]:
    every other object of the heap, the component's fields, the listeners,
    the pending tasks, the trace and the target keep their state. *)
Definition hframe (x : loc) (w w' : world) : Prop :=
  (forall l o, l ≠ x -> heap w !! l = Some o -> heap w' !! l = Some o) /\
  kdata w' = kdata w /\ kcomputed w' = kcomputed w /\ options w' = options w /\
  events w' = events w /\ tasks w' = tasks w /\ trace w' = trace w /\ el w' = el w.

Definition mframe {A} (x : loc) (m : M A) : Prop := forall w, hframe x w (snd (m w)).

(** ** Scenarios *)

(** an observed object [{k}] at location 2, whose [k] holds 0, and a
    cyclic object [o = {self: o}] at location 3 *)
Definition observed_world : world :=
  with_heap (<[2%positive := [("k", PAccessor (VNum 0))]]>
               (<[3%positive := [("self", PData (VRef 3%positive))]]> ∅))
    (empty_world ∅).


(** a counter component: [new Kiwi({ data: { count: 0 }, watch: { count: cb1 },
    template: 'Count: {{count}}', el })] *)
Definition counter_world : world :=
  snd (kiwi_new js_eval [("count", VNum 0)] [] [("count", 1%nat)]
         (Some "Count: {{count}}") (Some "<div></div>") (empty_world ∅)).

(** [new Kiwi({ data: { k: undefined }, watch: { k: cb1 },
    template: 'k={{k}}', el })] *)
Definition undef_world : world :=
  snd (kiwi_new js_eval [("k", VUndef)] [] [("k", 1%nat)]
         (Some "k={{k}}") (Some "<div></div>") (empty_world ∅)).

(** [new Kiwi({ data: { user }, watch: { name: cb1 },
    template: 'Hi {{user}}', el })] with [user = { name: 'a' }] at
    location 10, and a cyclic object [o = {self: o}] at location 11 *)
Definition nested_world : world :=
  snd (kiwi_new js_eval [("user", VRef 10%positive)] [] [("name", 1%nat)]
         (Some "Hi {{user}}") (Some "<p></p>")
         (empty_world (<[10%positive := [("name", PData (VStr "a"))]]>
                         (<[11%positive := [("self", PData (VRef 11%positive))]]> ∅)))).

(** [new Kiwi({ data: { a: 0, b: 0 }, watch: { a: cb1, b: cb2 },
    template: '{{a}},{{b}}', el })] *)
Definition pair_world : world :=
  snd (kiwi_new js_eval [("a", VNum 0); ("b", VNum 0)] [] [("a", 1%nat); ("b", 2%nat)]
         (Some "{{a}},{{b}}") (Some "<p></p>") (empty_world ∅)).

(** a template engine of its own, with an empty cache, over the heap [h] *)
Definition engine_world (h : gmap loc jsobj) : world := with_engine (Some ∅) (empty_world h).

(** the data object at location 5 holds [f = () => { throw null }] and
    [o = { toString() { throw 'boom' } }] (at location 6) *)
Definition throwing_world : world :=
  engine_world (<[5%positive := [("f", PData (VFun 0 "() => { throw null }" true VNull));
                                ("o", PData (VRef 6%positive))]]>
                (<[6%positive := [("toString", PData (VFun 1 "() => { throw 'boom' }" true (VStr "boom")))]]> ∅)).

(** the data object at location 5 is [{}] *)
Definition plain_world : world := engine_world (<[5%positive := []]> ∅).

(** data [count = n], computed [double = () => this.count * 2], template
    ["{{double}}"] *)
Definition double_getter : getter := fun rd =>
  match rd "count" with VNum n => VNum (2 * n) | _ => VNaN end.

Definition computed_world (n : Z) : world :=
  snd (kiwi_new js_eval [("count", VNum n)] [("double", double_getter)] []
         (Some "{{double}}") (Some "<p></p>") (empty_world ∅)).

(** ** The rendering contract of the specification

    Each text token contributes its text verbatim.  An expression token
    contributes the empty string when its value is [undefined] or when its
    evaluation fails, and the string conversion of its value otherwise; a
    [null] value also contributes the empty string, as [join('')] drops it. *)
Definition spec_piece (ev : world -> loc -> string -> outcome val) (w : world) (ctx : loc)
    (t : token) : outcome string :=
  match t with
  | TText s => Ok s
  | TExpr e =>
      match ev w ctx e with
      | Ok VUndef | Ok VNull => Ok String.EmptyString
      | Ok v => to_string w v
      | Exn _ => Ok String.EmptyString
      end
  end.

Fixpoint spec_render (ev : world -> loc -> string -> outcome val) (w : world) (ctx : loc)
    (ts : list token) : outcome string :=
  match ts with
  | [] => Ok String.EmptyString
  | t :: ts' =>
      match spec_piece ev w ctx t with
      | Exn x => Exn x
      | Ok s => match spec_render ev w ctx ts' with Ok r => Ok (s +:+ r) | Exn x => Exn x end
      end
  end.

(** A token the render closure evaluates without an exception: a text, or an
    expression whose evaluation returns. *)
Definition token_returns (ev : world -> loc -> string -> outcome val) (w : world) (ctx : loc)
    (t : token) : Prop :=
  match t with TText _ => True | TExpr e => exists v, ev w ctx e = Ok v end.

(** the piece [join('')] makes of one value *)
Definition join_piece (w : world) (v : val) : outcome string :=
  match v with VUndef | VNull => Ok String.EmptyString | _ => to_string w v end.

(** ** EventEmitter, in general

    The class [EventEmitter] for any event name.  A listener is a callback
    whose only effect is to be called, identified by [f], or the wrapper
    closure [once] makes around the callback [f]; each wrapper is a fresh
    closure with its own identity [w].  The arguments of [emit] have the
    type [A].  [_events] lists the own properties of [this._events] in
    creation order. *)
Module EventEmitter.

Inductive listener := LFn (f : nat) | LOnce (w : nat) (f : nat).

Global Instance listener_eq_dec : EqDecision listener.
Proof. solve_decision. Defined.

(** the callback a listener ends up calling *)
Definition target (l : listener) : nat := match l with LFn f | LOnce _ f => f end.

Definition is_once (l : listener) : bool := match l with LOnce _ _ => true | LFn _ => false end.

Section Emitter.

Context {A : Type}.

Record emitter := mkEmitter {
  _events : list (string * list listener);
  _maxListeners : Z;
  wrappers : nat;                        (* identities of the [once] wrappers made so far *)
  calls : list (nat * list A);           (* the callbacks called, with their arguments *)
  warnings : list string                 (* console.warn *)
}.

(** [constructor()] *)
Definition new_emitter : emitter :=
  {| _events := []; _maxListeners := 10; wrappers := 0; calls := []; warnings := [] |}.

Definition set_events (evs : list (string * list listener)) (e : emitter) : emitter :=
  {| _events := evs; _maxListeners := _maxListeners e; wrappers := wrappers e;
     calls := calls e; warnings := warnings e |}.

Definition warn (msg : string) (e : emitter) : emitter :=
  {| _events := _events e; _maxListeners := _maxListeners e; wrappers := wrappers e;
     calls := calls e; warnings := warnings e ++ [msg] |}.

Definition record_call (f : nat) (args : list A) (e : emitter) : emitter :=
  {| _events := _events e; _maxListeners := _maxListeners e; wrappers := wrappers e;
     calls := calls e ++ [(f, args)]; warnings := warnings e |}.

(** what [this._events[event]] finds: an own array, a member inherited
    from Object.prototype, or nothing *)
Inductive slot := SOwn (ls : list listener) | SInherited (v : val) | SAbsent.

Definition lookup_event (e : emitter) (ev : string) : slot :=
  match assoc_get ev (_events e) with
  | Some ls => SOwn ls
  | None => match proto_member ev with Some v => SInherited v | None => SAbsent end
  end.

(** the [length] of the built-in methods of Object.prototype; the
    prototype object itself has none *)
Definition builtin_length (m : string) : Z :=
  if String.eqb m "constructor" then 1
  else if String.eqb m "__defineGetter__" then 2
  else if String.eqb m "__defineSetter__" then 2
  else if String.eqb m "toString" then 0
  else if String.eqb m "valueOf" then 0
  else if String.eqb m "toLocaleString" then 0
  else 1.

Definition inherited_length (v : val) : option Z :=
  match v with VBuiltin m => Some (builtin_length m) | _ => None end.

Definition max_warning (ev : string) (n : Z) : string :=
  "Warning: Event " +:+ dq +:+ ev +:+ dq +:+
  " has exceeded the maximum number of listeners (" +:+ num_to_string n +:+ ").".

(** [if (this._events[event].length >= this._maxListeners) console.warn(...)] *)
Definition check_max (ev : string) (len : option Z) (e : emitter) : emitter :=
  match len with
  | Some n => if (_maxListeners e <=? n)%Z then warn (max_warning ev (_maxListeners e)) e else e
  | None => e                            (* undefined >= n is false *)
  end.

Definition assoc_del {B} (k : string) : list (string * B) -> list (string * B) :=
  fix go l := match l with
              | [] => []
              | (k', x) :: l' => if String.eqb k k' then l' else (k', x) :: go l'
              end.

(** [on(event, callback)] *)
Definition on (ev : string) (cb : listener) (e : emitter) : outcome unit * emitter :=
  let push (ls : list listener) (e : emitter) :=
    let e1 := check_max ev (Some (Z.of_nat (length ls))) e in
    (Ok (), set_events (assoc_set ev (ls ++ [cb]) (_events e1)) e1) in
  match lookup_event e ev with
  | SOwn ls => push ls e
  | SAbsent => push [] (set_events (assoc_set ev [] (_events e)) e)   (* this._events[event] = [] *)
  | SInherited v =>
      (Exn (type_error "this._events[event].push is not a function"),
       check_max ev (inherited_length v) e)
  end.

(** [off(event, callback)]; [None] is a missing callback *)
Definition off (ev : string) (cb : option listener) (e : emitter) : outcome unit * emitter :=
  match lookup_event e ev with
  | SAbsent => (Ok (), e)
  | SOwn ls =>
      match cb with
      | None => (Ok (), set_events (assoc_del ev (_events e)) e)      (* delete this._events[event] *)
      | Some c =>
          (Ok (), set_events (assoc_set ev (List.filter (fun x => negb (bool_decide (x = c))) ls)
                                        (_events e)) e)
      end
  | SInherited _ =>
      match cb with
      | None => (Ok (), e)               (* deleting an inherited property does nothing *)
      | Some _ => (Exn (type_error "this._events[event].filter is not a function"), e)
      end
  end.

(** [callback.apply(this, args)] *)
Definition call_listener (ev : string) (args : list A) (l : listener) (e : emitter)
    : outcome unit * emitter :=
  match l with
  | LFn f => (Ok (), record_call f args e)
  | LOnce w f =>
      match off ev (Some (LOnce w f)) e with      (* this.off(event, onceCallback) *)
      | (Ok _, e1) => (Ok (), record_call f args e1)
      | (Exn x, e1) => (Exn x, e1)
      end
  end.

(** [forEach] over the array read before the loop *)
Fixpoint call_each (ev : string) (args : list A) (ls : list listener) (e : emitter)
    : outcome unit * emitter :=
  match ls with
  | [] => (Ok (), e)
  | l :: ls' =>
      match call_listener ev args l e with
      | (Ok _, e1) => call_each ev args ls' e1
      | (Exn x, e1) => (Exn x, e1)
      end
  end.

(** [emit(event, ...args)] *)
Definition emit (ev : string) (args : list A) (e : emitter) : outcome bool * emitter :=
  match lookup_event e ev with
  | SAbsent => (Ok false, e)
  | SInherited _ => (Exn (type_error "this._events[event].forEach is not a function"), e)
  | SOwn ls =>
      match call_each ev args ls e with
      | (Ok _, e1) => (Ok true, e1)
      | (Exn x, e1) => (Exn x, e1)
      end
  end.

(** [once(event, callback)] *)
Definition once (ev : string) (f : nat) (e : emitter) : outcome unit * emitter :=
  let w := wrappers e in
  on ev (LOnce w f)
     {| _events := _events e; _maxListeners := _maxListeners e; wrappers := S w;
        calls := calls e; warnings := warnings e |}.

(** [setMaxListeners(n)] *)
Definition setMaxListeners (n : Z) (e : emitter) : emitter :=
  {| _events := _events e; _maxListeners := n; wrappers := wrappers e;
     calls := calls e; warnings := warnings e |}.

(** [listenerCount(event)] *)
Definition listenerCount (e : emitter) (ev : string) : val :=
  match lookup_event e ev with
  | SOwn ls => VNum (Z.of_nat (length ls))
  | SInherited v => match inherited_length v with Some n => VNum n | None => VUndef end
  | SAbsent => VNum 0
  end.

End Emitter.

Arguments emitter : clear implicits.

End EventEmitter.

(** an emitter whose event ["tick"] holds the callback 1, a [once]
    wrapper around 2, and 1 again *)
Definition tick_emitter : EventEmitter.emitter val :=
  {| EventEmitter._events := [("tick", [EventEmitter.LFn 1; EventEmitter.LOnce 0 2; EventEmitter.LFn 1])];
     EventEmitter._maxListeners := 10; EventEmitter.wrappers := 1;
     EventEmitter.calls := []; EventEmitter.warnings := [] |}.

(** a client registering the callbacks [cbs] in turn:
    [for (const cb of cbs) emitter.on(ev, cb)] *)
Fixpoint on_each {A} (ev : string) (cbs : list EventEmitter.listener) (e : EventEmitter.emitter A)
    : outcome unit * EventEmitter.emitter A :=
  match cbs with
  | [] => (Ok (), e)
  | cb :: cbs' =>
      match EventEmitter.on ev cb e with
      | (Ok _, e1) => on_each ev cbs' e1
      | (Exn x, e1) => (Exn x, e1)
      end
  end.

(** ** Template: properties of the cache *)

(** [pat] occurs in [s] *)
Fixpoint occurs (pat s : list ascii) : bool :=
  match strip_prefix pat s with
  | Some _ => true
  | None => match s with [] => false | _ :: s' => occurs pat s' end
  end.

(** what [compile] stores: under each template string, its render closure
    over the tokens of that string; never under a name inherited from
    Object.prototype *)
Definition cache_ok (cache : gmap string renderer) : Prop :=
  forall t r, cache !! t = Some r -> rtokens r = tokenize t /\ proto_member t = None.

(** ** utils: the string helpers *)

Module Utils.

(** [[a-z]] and [[A-Z]] of a regular expression without the [i] flag *)
Definition is_lower (c : ascii) : bool :=
  let n := Ascii.nat_of_ascii c in ((97 <=? n) && (n <=? 122))%nat.

Definition is_upper (c : ascii) : bool :=
  let n := Ascii.nat_of_ascii c in ((65 <=? n) && (n <=? 90))%nat.

(** [String.prototype.toLowerCase] on a Latin-1 code unit: A-Z and
    U+00C0..U+00DE but U+00D7 move down by 0x20 *)
Definition lower_char (c : ascii) : ascii :=
  let n := Ascii.nat_of_ascii c in
  if (((65 <=? n) && (n <=? 90)) || ((192 <=? n) && (n <=? 222) && negb (n =? 215)))%nat
  then Ascii.ascii_of_nat (n + 32) else c.

(** [String.prototype.toUpperCase] on a Latin-1 code unit: a-z and
    U+00E0..U+00FE but U+00F7 move up by 0x20, U+00DF becomes "SS";
    [None] for U+00B5 and U+00FF, whose upper case lies outside Latin-1 *)
Definition upper_char (c : ascii) : option (list ascii) :=
  let n := Ascii.nat_of_ascii c in
  if (((97 <=? n) && (n <=? 122)) || ((224 <=? n) && (n <=? 254) && negb (n =? 247)))%nat
  then Some [Ascii.ascii_of_nat (n - 32)]
  else if (n =? 223)%nat then Some ["S"%char; "S"%char]
  else if ((n =? 181) || (n =? 255))%nat then None
  else Some [c].

(** [str.toLowerCase()] *)
Definition to_lower (s : list ascii) : list ascii := map lower_char s.

(** [str.replace(/([a-z])([A-Z])/g, '$1-$2')]: the matches are tried
    from left to right and do not overlap *)
Fixpoint kebab_replace (s : list ascii) : list ascii :=
  match s with
  | a :: ((b :: t) as r) =>
      if is_lower a && is_upper b then a :: "-"%char :: b :: kebab_replace t
      else a :: kebab_replace r
  | _ => s
  end.

(** [g[1].toUpperCase()] for [g[1]] in [[a-z]] *)
Definition upper_ascii_letter (c : ascii) : ascii :=
  Ascii.ascii_of_nat (Ascii.nat_of_ascii c - 32).

(** [str.replace(/-([a-z])/g, function(g) { return g[1].toUpperCase(); })] *)
Fixpoint camel_replace (s : list ascii) : list ascii :=
  match s with
  | a :: ((b :: t) as r) =>
      if Ascii.eqb a "-"%char && is_lower b then upper_ascii_letter b :: camel_replace t
      else a :: camel_replace r
  | _ => s
  end.

(** the helpers called as [utils.f(str)], on strings of Latin-1 code units;
    [if (!this.isString(str)) return ''] *)
Definition kebabCase (v : val) : val :=
  match v with
  | VStr s => VStr (str (to_lower (kebab_replace (String.list_ascii_of_string s))))
  | _ => VStr String.EmptyString
  end.

Definition camelCase (v : val) : val :=
  match v with
  | VStr s => VStr (str (camel_replace (String.list_ascii_of_string s)))
  | _ => VStr String.EmptyString
  end.

Definition trim (v : val) : val :=
  match v with
  | VStr s => VStr (str (trim_ascii (String.list_ascii_of_string s)))
  | _ => VStr String.EmptyString
  end.

(** [str.charAt(0).toUpperCase() + str.slice(1)]; [None] where the result
    leaves Latin-1 *)
Definition capitalize (v : val) : option val :=
  match v with
  | VStr s =>
      match String.list_ascii_of_string s with
      | [] => Some (VStr String.EmptyString)
      | c :: t => match upper_char c with
                  | Some u => Some (VStr (str (u ++ t)))
                  | None => None
                  end
      end
  | _ => Some (VStr String.EmptyString)
  end.

(** identifiers written in camel case: ASCII letters and digits, not
    starting with an upper-case letter, every upper-case letter right after
    a lower-case one *)
Fixpoint upper_after_lower (s : list ascii) : bool :=
  match s with
  | a :: ((b :: _) as r) => (negb (is_upper b) || is_lower a) && upper_after_lower r
  | _ => true
  end.

Definition camel_word (s : list ascii) : bool :=
  forallb (fun c => is_lower c || is_upper c || is_digit c) s &&
  match s with c :: _ => negb (is_upper c) | [] => true end &&
  upper_after_lower s.

(** words written in kebab case: lower-case letters, digits and dashes,
    every dash between two lower-case letters, and the letter after a dash
    not followed by another dash *)
Fixpoint kebab_word (s : list ascii) : bool :=
  match s with
  | [] => true
  | a :: r =>
      (is_lower a || is_digit a) &&
      match r with
      | d :: b :: t =>
          if Ascii.eqb d "-"%char then is_lower a && is_lower b && kebab_word t
          else kebab_word r
      | _ => kebab_word r
      end
  end.

End Utils.

(** ** Theorems *)

(** Monad equations *)
Lemma bind_run {A B} (m : M A) (f : A -> M B) (w : world) :
  (m ≫= f) w = match m w with (Ok a, w') => f a w' | (Exn x, w') => (Exn x, w') end.
Proof. reflexivity. Qed.

Lemma ret_run {A} (a : A) (w : world) : (mret a : M A) w = (Ok a, w).
Proof. reflexivity. Qed.

(** *** C4: the template cache *)

(** C4: calling [compile(T)] again right after a call with the same string
    returns the very same result and leaves the state untouched: no new
    closure is made, the template is not tokenized again, the cache is
    unchanged. *)
Theorem compile_cached (t : string) (w : world) :
  let '(o, w1) := compile t w in compile t w1 = (o, w1).
Proof.
  destruct w as [h n d c o e cache0 evs ts tr cons]. unfold compile.
  unfold mbind, M_bind, mret, M_ret, get_world, modify, throw; cbn -[proto_member tokenize].
  destruct cache0 as [cache|]; cbn -[proto_member tokenize]; [|reflexivity].
  destruct (cache !! t) as [r|] eqn:Hc; cbn -[proto_member tokenize].
  - rewrite Hc. reflexivity.
  - destruct (proto_member _) as [v|] eqn:Hp; cbn -[proto_member tokenize].
    + rewrite Hc. reflexivity.
    + rewrite lookup_insert_eq. reflexivity.
Qed.

(** *** C8: watchers and their unwatch closures *)

Lemma assoc_get_set_eq {A} (k : string) (x : A) (l : list (string * A)) :
  assoc_get k (assoc_set k x l) = Some x.
Proof.
  induction l as [|[k' y] l IH]; simpl.
  - rewrite String.eqb_refl. reflexivity.
  - destruct (String.eqb k k') eqn:E; simpl.
    + rewrite E. reflexivity.
    + rewrite E. exact IH.
Qed.

Lemma assoc_get_set_ne {A} (k k' : string) (x : A) (l : list (string * A)) :
  k' ≠ k -> assoc_get k' (assoc_set k x l) = assoc_get k' l.
Proof.
  intros Hne. induction l as [|[k0 y] l IH]; simpl.
  - destruct (String.eqb k' k) eqn:E; [apply String.eqb_eq in E; congruence|reflexivity].
  - destruct (String.eqb k k0) eqn:E; simpl.
    + apply String.eqb_eq in E. subst k0.
      destruct (String.eqb k' k) eqn:E'; [apply String.eqb_eq in E'; congruence|reflexivity].
    + destruct (String.eqb k' k0); [reflexivity|exact IH].
Qed.

Lemma assoc_set_get {A} (k : string) (x : A) (l : list (string * A)) :
  assoc_get k l = Some x -> assoc_set k x l = l.
Proof.
  induction l as [|[k' y] l IH]; simpl; [discriminate|].
  destruct (String.eqb k k') eqn:E.
  - intros [= ->]. apply String.eqb_eq in E. subst. reflexivity.
  - intros H. rewrite (IH H). reflexivity.
Qed.

Lemma filter_other_ids (i : nat) (l : list watcher) :
  Forall (fun y => wid y ≠ i) l -> filter (fun y => negb (Nat.eqb (wid y) i)) l = l.
Proof.
  induction 1 as [|y l Hy _ IH]; [reflexivity|].
  rewrite filter_cons. destruct (Nat.eqb (wid y) i) eqn:E.
  - apply Nat.eqb_eq in E. contradiction.
  - simpl. rewrite IH. reflexivity.
Qed.

Lemma with_events_same (w : world) : with_events (events w) w = w.
Proof. destruct w; reflexivity. Qed.

(** Unwatching the watcher [x] of id [i], when no other listener has
    that id, leaves exactly the other listeners, in order; a second call
    changes nothing. *)
Lemma unwatch_spec (ws : world) (pre post : list watcher) (x : watcher) :
  listeners ws = pre ++ x :: post ->
  Forall (fun y => wid y ≠ wid x) (pre ++ post) ->
  let '(o2, w2) := kiwi_unwatch (wid x) ws in
  o2 = Ok () /\ listeners w2 = pre ++ post /\
  (forall e, e ≠ "dataChange" -> assoc_get e (events w2) = assoc_get e (events ws)) /\
  kiwi_unwatch (wid x) w2 = (Ok (), w2).
Proof.
  intros Hl Hf. unfold listeners in Hl.
  unfold kiwi_unwatch, off_data_change.
  rewrite bind_run. simpl.
  destruct (assoc_get "dataChange" (events ws)) as [ls|] eqn:Hg;
    [|simpl in Hl; destruct pre; discriminate].
  simpl in Hl. subst ls.
  assert (Hfil : filter (fun y => negb (Nat.eqb (wid y) (wid x))) (pre ++ x :: post) = pre ++ post).
  { rewrite filter_app, filter_cons, Nat.eqb_refl. simpl.
    apply Forall_app in Hf as [Hpre Hpost].
    rewrite (filter_other_ids _ _ Hpre), (filter_other_ids _ _ Hpost). reflexivity. }
  unfold modify. simpl. rewrite Hfil.
  split; [reflexivity|]. split; [|split].
  - unfold listeners. simpl. rewrite assoc_get_set_eq. reflexivity.
  - intros e He. simpl. apply assoc_get_set_ne. exact He.
  - rewrite bind_run. simpl. rewrite assoc_get_set_eq. simpl.
    rewrite (filter_other_ids _ _ Hf).
    rewrite (assoc_set_get _ _ _ (assoc_get_set_eq _ _ _)). reflexivity.
Qed.



(** *** C2: use after [$destroy()] *)



(** *** The observer *)

Lemma prop_le_refl (p : prop) : prop_le p p.
Proof. left. reflexivity. Qed.

Lemma prop_le_trans (p1 p2 p3 : prop) : prop_le p1 p2 -> prop_le p2 p3 -> prop_le p1 p3.
Proof.
  intros H12 [->|[[x [-> ->]]|[g [x [-> ->]]]]]; [exact H12| |];
    destruct H12 as [<-|[[y [_ H]]|[g' [y [_ H]]]]]; try discriminate;
    right; [left|right]; eauto.
Qed.

Lemma obj_le_refl (o : jsobj) : obj_le o o.
Proof. induction o; constructor; [split; [reflexivity|apply prop_le_refl]|assumption]. Qed.

Lemma obj_le_trans (o1 o2 o3 : jsobj) : obj_le o1 o2 -> obj_le o2 o3 -> obj_le o1 o3.
Proof.
  intros H12. revert o3. induction H12 as [|a b o1 o2 [Hk Hp] _ IH]; intros o3 H23;
    inversion H23 as [|b' c o2' o3' [Hk' Hp'] H23']; subst; constructor.
  - split; [congruence|eapply prop_le_trans; eauto].
  - apply IH. assumption.
Qed.

Lemma heap_le_refl (h : gmap loc jsobj) : heap_le h h.
Proof. intros l. destruct (h !! l); [apply obj_le_refl|exact I]. Qed.

Lemma heap_le_trans (h1 h2 h3 : gmap loc jsobj) : heap_le h1 h2 -> heap_le h2 h3 -> heap_le h1 h3.
Proof.
  intros H12 H23 l. specialize (H12 l). specialize (H23 l).
  destruct (h1 !! l), (h2 !! l), (h3 !! l); try contradiction; try exact I.
  eapply obj_le_trans; eauto.
Qed.

Lemma with_heap_twice (h h' : gmap loc jsobj) (w : world) :
  with_heap h (with_heap h' w) = with_heap h w.
Proof. destruct w; reflexivity. Qed.

Lemma with_heap_congr (h h' : gmap loc jsobj) (w w' : world) :
  w' = with_heap h' w -> with_heap h w' = with_heap h w.
Proof. intros ->. apply with_heap_twice. Qed.

Lemma world_le_refl (w : world) : world_le w w.
Proof. split; [apply heap_le_refl|destruct w; reflexivity]. Qed.

Lemma world_le_trans (w1 w2 w3 : world) : world_le w1 w2 -> world_le w2 w3 -> world_le w1 w3.
Proof.
  intros [H12 E2] [H23 E3]. split; [eapply heap_le_trans; eauto|].
  rewrite E3, E2, with_heap_twice. reflexivity.
Qed.

Lemma obj_le_own_prop (o o' : jsobj) (k : string) (p : prop) :
  obj_le o o' -> own_prop o k = Some p -> exists p', own_prop o' k = Some p' /\ prop_le p p'.
Proof.
  induction 1 as [|[k1 p1] [k2 p2] o o' [Hk Hp] _ IH]; simpl in *; [discriminate|].
  subst k2. destruct (String.eqb k k1); [intros [= ->]; eauto|exact IH].
Qed.

Lemma set_own_le (o o1 : jsobj) (k : string) (p p' : prop) :
  obj_le o o1 -> own_prop o k = Some p -> prop_le p p' -> obj_le o (set_own o1 k p').
Proof.
  intros H. revert p. induction H as [|[k1 p1] [k2 p2] o o1 [Hk Hp] Hr IH]; intros p; simpl in *;
    [discriminate|].
  subst k2. destruct (String.eqb k k1).
  - intros [= ->] Hle. constructor; [split; [reflexivity|exact Hle]|exact Hr].
  - intros Ho Hle. constructor; [split; [reflexivity|exact Hp]|eapply IH; eauto].
Qed.

Lemma own_prop_set_own (o : jsobj) (k : string) (p : prop) :
  own_prop (set_own o k p) k = Some p.
Proof.
  induction o as [|[k1 p1] o IH]; simpl; [rewrite String.eqb_refl; reflexivity|].
  destruct (String.eqb k k1) eqn:E; simpl; rewrite E; [reflexivity|exact IH].
Qed.

Lemma own_prop_set_own_ne (o : jsobj) (k k' : string) (p : prop) :
  k' ≠ k -> own_prop (set_own o k p) k' = own_prop o k'.
Proof.
  intros Hne. induction o as [|[k1 p1] o IH]; simpl.
  - destruct (String.eqb k' k) eqn:E; [apply String.eqb_eq in E; congruence|reflexivity].
  - destruct (String.eqb k k1) eqn:E; simpl.
    + apply String.eqb_eq in E. subst k1.
      destruct (String.eqb k' k) eqn:E'; [apply String.eqb_eq in E'; congruence|reflexivity].
    + destruct (String.eqb k' k1); [reflexivity|exact IH].
Qed.

Lemma own_keys_own_prop (o : jsobj) (k : string) :
  k ∈ own_keys o -> exists p, own_prop o k = Some p.
Proof.
  induction o as [|[k1 p1] o IH]; simpl; intros H; [inversion H|].
  destruct (String.eqb k k1) eqn:E; [eauto|].
  apply elem_of_cons in H as [->|H]; [rewrite String.eqb_refl in E; discriminate|auto].
Qed.

Lemma obj_of_le (w w' : world) (l : loc) :
  heap_le (heap w) (heap w') -> obj_le (obj_of w l) (obj_of w' l).
Proof.
  intros H. specialize (H l). unfold obj_of.
  destruct (heap w !! l), (heap w' !! l); try contradiction; [exact H|constructor].
Qed.

Lemma read_accessor_le (w : world) (l : loc) (k : string) (p0 pc : prop) :
  own_prop (obj_of w l) k = Some pc -> prop_le p0 pc -> prop_le p0 (PAccessor (read w l k)).
Proof.
  intros Hc Hle. unfold read. rewrite Hc.
  destruct Hle as [->|[[x [-> ->]]|[g [x [-> ->]]]]].
  - destruct p0 as [x|x|g]; [right; left; eauto|left; reflexivity|right; right; eauto].
  - right; left; eauto.
  - right; right; eauto.
Qed.

Lemma own_prop_in_heap (w : world) (l : loc) (k : string) (p : prop) :
  own_prop (obj_of w l) k = Some p -> exists o, heap w !! l = Some o /\ obj_of w l = o.
Proof. unfold obj_of. destruct (heap w !! l); simpl; [eauto|discriminate]. Qed.

Lemma define_le (w0 wd : world) (l : loc) (k : string) (p0 p' : prop) :
  world_le w0 wd -> own_prop (obj_of w0 l) k = Some p0 -> prop_le p0 p' ->
  define_prop l k p' wd = (Ok (), with_heap (heap (snd (define_prop l k p' wd))) wd) /\
  world_le w0 (snd (define_prop l k p' wd)).
Proof.
  intros [Hh Ew] Hp Hle. unfold define_prop, modify. simpl.
  split; [reflexivity|].
  split; [|simpl; apply (with_heap_congr _ (heap wd)); exact Ew].
  intros l'. cbn [heap with_heap]. destruct (decide (l' = l)) as [->|Hne].
  - rewrite lookup_insert_eq.
    destruct (own_prop_in_heap _ _ _ _ Hp) as [o [Ho Eo]]. rewrite Ho.
    rewrite <- Eo. eapply set_own_le; [apply obj_of_le; exact Hh|exact Hp|exact Hle].
  - rewrite lookup_insert_ne by congruence. apply Hh.
Qed.

Lemma observe_le (fuel : nat) :
  forall (v : val) (w : world),
  let '(o, w') := observe fuel v w in
  world_le w w' /\ (o = Ok () \/ o = Exn stack_overflow).
Proof.
  induction fuel as [|fuel IH]; intros v w;
    destruct v as [| | | | | |l| |];
    try (split; [apply world_le_refl|left; reflexivity]).
  - split; [apply world_le_refl|right; reflexivity].
  - cbn [observe]. unfold get_obj, mbind, M_bind, mret, M_ret, get_world.
    match goal with |- let '(_, _) := ?F (own_keys (obj_of w l)) w in _ => set (each := F) end.
    assert (H : forall ks wc,
      (forall k, k ∈ ks -> exists p, own_prop (obj_of w l) k = Some p) -> world_le w wc ->
      let '(o, w') := each ks wc in world_le w w' /\ (o = Ok () \/ o = Exn stack_overflow)).
    { subst each. induction ks as [|k ks IHks]; intros wc Hks Hwc; cbn -[observe define_prop read].
      - split; [exact Hwc|left; reflexivity].
      - destruct (Hks k (proj2 (elem_of_cons _ _ _) (or_introl eq_refl))) as [p0 Hp0].
        destruct (obj_le_own_prop _ _ _ _ (obj_of_le _ _ l (proj1 Hwc)) Hp0) as [pc [Hpc Hle]].
        pose proof (read_accessor_le _ _ _ _ _ Hpc Hle) as Hacc.
        assert (Hobs : let '(o1, w1) := (if is_object (read wc l k) then observe fuel (read wc l k)
                                         else fun w1 : world => (Ok (), w1)) wc in
                       world_le wc w1 /\ (o1 = Ok () \/ o1 = Exn stack_overflow)).
        { destruct (is_object _); [apply IH|split; [apply world_le_refl|left; reflexivity]]. }
        destruct ((if is_object (read wc l k) then observe fuel (read wc l k)
                   else fun w1 : world => (Ok (), w1)) wc) as [o1 w1].
        destruct Hobs as [Hw1 [->| ->]].
        + pose proof (world_le_trans _ _ _ Hwc Hw1) as Hw01.
          destruct (define_le _ _ _ _ _ _ Hw01 Hp0 Hacc) as [Ed Hw2].
          rewrite Ed. apply IHks; [|exact Hw2].
          intros k' Hk'. apply Hks. apply elem_of_cons. right. exact Hk'.
        + split; [eapply world_le_trans; eauto|right; reflexivity]. }
    apply H; [intros k Hk; apply own_keys_own_prop; exact Hk|apply world_le_refl].
Qed.

Lemma prop_le_accessor (v : val) (p : prop) : prop_le (PAccessor v) p -> p = PAccessor v.
Proof. intros [->|[[x [H _]]|[g [x [H _]]]]]; [reflexivity|discriminate|discriminate]. Qed.

Lemma world_le_accessor (w w' : world) (l : loc) (k : string) (v : val) :
  world_le w w' -> own_prop (obj_of w l) k = Some (PAccessor v) ->
  own_prop (obj_of w' l) k = Some (PAccessor v).
Proof.
  intros [Hh _] Hp.
  destruct (obj_le_own_prop _ _ _ _ (obj_of_le _ _ l Hh) Hp) as [p' [Hp' Hle]].
  rewrite Hp', (prop_le_accessor _ _ Hle). reflexivity.
Qed.

Lemma world_le_trace (w w' : world) : world_le w w' -> trace w' = trace w.
Proof. intros [_ ->]. destruct w; reflexivity. Qed.

Lemma store_cell_own (w : world) (l : loc) (k : string) (v : val) :
  own_prop (obj_of (store_cell l k v w) l) k = Some (PAccessor v).
Proof.
  unfold store_cell, obj_of. simpl. rewrite lookup_insert_eq. simpl. apply own_prop_set_own.
Qed.

(** the setter of an instrumented property, for a value that is not [===]
    to the current one *)
Lemma put_accessor_distinct (cb : observer_cb) (w : world) (l : loc) (k : string) (old v : val) :
  own_prop (obj_of w l) k = Some (PAccessor old) -> strict_eq old v = false ->
  put cb l k v w =
  match (if is_object v then observe stack_limit v else mret ()) (store_cell l k v w) with
  | (Ok _, wb) => cb k v old wb
  | (Exn x, wb) => (Exn x, wb)
  end.
Proof.
  intros Hp E. unfold put, get_obj, mbind, M_bind, get_world, mret, M_ret. cbn -[observe].
  rewrite Hp, E. reflexivity.
Qed.

Lemma put_accessor_same (cb : observer_cb) (w : world) (l : loc) (k : string) (old v : val) :
  own_prop (obj_of w l) k = Some (PAccessor old) -> strict_eq old v = true ->
  put cb l k v w = (Ok (), w).
Proof.
  intros Hp E. unfold put, get_obj, mbind, M_bind, get_world, mret, M_ret. cbn -[observe].
  rewrite Hp, E. reflexivity.
Qed.

Lemma instrument_le (v : val) (w : world) :
  let '(o, w') := (if is_object v then observe stack_limit v else mret ()) w in
  world_le w w' /\ (o = Ok () \/ o = Exn stack_overflow).
Proof.
  destruct (is_object v); [apply observe_le|split; [apply world_le_refl|left; reflexivity]].
Qed.

Lemma strict_eq_refl (v : val) : v ≠ VNaN -> strict_eq v v = true.
Proof.
  intros H. destruct v; simpl; try reflexivity; try congruence.
  - destruct b; reflexivity.
  - apply Z.eqb_refl.
  - apply String.eqb_refl.
  - apply Pos.eqb_refl.
  - apply Nat.eqb_refl.
  - apply String.eqb_refl.
Qed.

(** after a completed [observe] of the object at [l], each of its own keys
    holds an accessor *)
Lemma observe_ok_accessors (fuel : nat) (l : loc) (w : world) :
  let '(o, w') := observe fuel (VRef l) w in
  o = Ok () -> forall k, k ∈ own_keys (obj_of w l) ->
  exists x, own_prop (obj_of w' l) k = Some (PAccessor x).
Proof.
  destruct fuel as [|fuel]; [discriminate|].
  cbn [observe]. unfold get_obj, mbind, M_bind, mret, M_ret, get_world.
  match goal with |- let '(_, _) := ?F (own_keys (obj_of w l)) w in _ => set (each := F) end.
  assert (H : forall ks wc,
    (forall k, k ∈ ks -> exists p, own_prop (obj_of wc l) k = Some p) ->
    let '(o, w') := each ks wc in
    world_le wc w' /\
    (o = Ok () -> forall k, k ∈ ks -> exists x, own_prop (obj_of w' l) k = Some (PAccessor x))).
  { subst each. induction ks as [|k ks IHks]; intros wc Hks; cbn -[observe define_prop read].
    - split; [apply world_le_refl|intros _ k Hk; inversion Hk].
    - destruct (Hks k (proj2 (elem_of_cons _ _ _) (or_introl eq_refl))) as [pc Hpc].
      pose proof (read_accessor_le _ _ _ _ _ Hpc (prop_le_refl pc)) as Hacc.
      assert (Hobs : let '(o1, w1) := (if is_object (read wc l k) then observe fuel (read wc l k)
                                       else fun w1 : world => (Ok (), w1)) wc in
                     world_le wc w1 /\ (o1 = Ok () \/ o1 = Exn stack_overflow)).
      { destruct (is_object _); [apply observe_le|split; [apply world_le_refl|left; reflexivity]]. }
      destruct ((if is_object (read wc l k) then observe fuel (read wc l k)
                 else fun w1 : world => (Ok (), w1)) wc) as [o1 w1].
      destruct Hobs as [Hw1 [->| ->]]; [|split; [exact Hw1|discriminate]].
      destruct (define_le _ _ _ _ _ _ Hw1 Hpc Hacc) as [Ed Hw2].
      rewrite Ed.
      set (w2 := snd (define_prop l k (PAccessor (read wc l k)) w1)) in *.
      assert (Hk2 : own_prop (obj_of w2 l) k = Some (PAccessor (read wc l k))).
      { subst w2. unfold define_prop, modify, obj_of. simpl. rewrite lookup_insert_eq. simpl.
        apply own_prop_set_own. }
      assert (Hks2 : forall k', k' ∈ ks -> exists p, own_prop (obj_of w2 l) k' = Some p).
      { intros k' Hk'. destruct (Hks k' (proj2 (elem_of_cons _ _ _) (or_intror Hk'))) as [p Hp].
        destruct (obj_le_own_prop _ _ _ _ (obj_of_le _ _ l (proj1 Hw2)) Hp) as [p' [Hp' _]].
        eauto. }
      specialize (IHks w2 Hks2).
      assert (E2 : with_heap (heap w2) w1 = w2) by (subst w2; destruct w1; reflexivity).
      rewrite E2.
      match goal with |- let '(_, _) := ?G ks w2 in _ => destruct (G ks w2) as [o3 w3] end.
      destruct IHks as [Hw3 Hacc3].
      split; [eapply world_le_trans; eauto|].
      intros Ho k' Hk'. apply elem_of_cons in Hk' as [->|Hk'].
      + eexists. exact (world_le_accessor _ _ _ _ _ Hw3 Hk2).
      + exact (Hacc3 Ho k' Hk'). }
  specialize (H (own_keys (obj_of w l)) w (fun k Hk => own_keys_own_prop _ _ Hk)).
  match goal with |- let '(_, _) := ?G _ w in _ => destruct (G (own_keys (obj_of w l)) w) as [o w'] end.
  exact (proj2 H).
Qed.

Lemma own_prop_elem_of_keys (o : jsobj) (k : string) (p : prop) :
  own_prop o k = Some p -> k ∈ own_keys o.
Proof.
  induction o as [|[k1 p1] o IH]; simpl; [discriminate|].
  destruct (String.eqb k k1) eqn:E.
  - intros _. apply String.eqb_eq in E. subst. apply elem_of_cons. left. reflexivity.
  - intros H. apply elem_of_cons. right. auto.
Qed.

(** *** Circular containers overflow [observe] *)

Lemma obj_le_keys (o o' : jsobj) : obj_le o o' -> own_keys o' = own_keys o.
Proof.
  induction 1 as [|a b o o' [Hk _] _ IH]; [reflexivity|].
  unfold own_keys in *. cbn. rewrite Hk, IH. reflexivity.
Qed.

Lemma links_into_spec (w : world) (l l' : loc) :
  links_into w l l' = true ->
  exists k, k ∈ own_keys (obj_of w l) /\
    (own_prop (obj_of w l) k = Some (PData (VRef l')) \/
     own_prop (obj_of w l) k = Some (PAccessor (VRef l'))).
Proof.
  unfold links_into. intros H. apply existsb_exists in H as [k [Hk Hm]].
  exists k. split; [apply list_elem_of_In; exact Hk|].
  destruct (own_prop (obj_of w l) k) as [[v|v|g]|]; try discriminate;
    destruct v; try discriminate; apply Pos.eqb_eq in Hm; subst; auto.
Qed.

Lemma links_into_le (w w' : world) (l l' : loc) :
  world_le w w' -> links_into w l l' = true -> links_into w' l l' = true.
Proof.
  intros Hle H. destruct (links_into_spec _ _ _ H) as [k [Hk Hp]].
  pose proof (obj_of_le w w' l (proj1 Hle)) as Ho.
  unfold links_into. apply existsb_exists. exists k.
  split; [apply list_elem_of_In; rewrite (obj_le_keys _ _ Ho); exact Hk|].
  destruct Hp as [Hp|Hp]; destruct (obj_le_own_prop _ _ _ _ Ho Hp) as [p' [Hp' Hpp]]; rewrite Hp';
    destruct Hpp as [->|[[x [Hx ->]]|[g [x [Hx _]]]]]; try discriminate;
    try (injection Hx as <-); apply Pos.eqb_refl.
Qed.

Lemma chain_le (w w' : world) (x : loc) (r : list loc) (l0 : loc) :
  world_le w w' -> chain w x r l0 = true -> chain w' x r l0 = true.
Proof.
  intros Hle. revert x. induction r as [|y r IH]; intros x; cbn [chain].
  - apply links_into_le. exact Hle.
  - intros [H1 H2]%andb_prop. apply andb_true_intro. split; [eapply links_into_le; eauto|auto].
Qed.

Lemma chain_snoc (w : world) (y : loc) (r : list loc) (x e : loc) :
  chain w y r x = true -> links_into w x e = true -> chain w y (r ++ [x]) e = true.
Proof.
  revert y. induction r as [|z r IH]; intros y; cbn [chain app].
  - intros H1 H2. rewrite H1, H2. reflexivity.
  - intros [H1 H2]%andb_prop H3. rewrite H1, (IH z H2 H3). reflexivity.
Qed.

(** a cycle through [x] is also a cycle through the next object *)
Lemma chain_rotate (w : world) (x : loc) (r : list loc) :
  chain w x r x = true -> exists y r', links_into w x y = true /\ chain w y r' y = true.
Proof.
  destruct r as [|y r]; cbn [chain].
  - intros H. exists x, []. split; exact H.
  - intros [H1 H2]%andb_prop. exists y, (r ++ [x]). split; [exact H1|].
    apply chain_snoc; assumption.
Qed.

Lemma read_link (w wc : world) (l y : loc) (k : string) :
  world_le w wc ->
  (own_prop (obj_of w l) k = Some (PData (VRef y)) \/
   own_prop (obj_of w l) k = Some (PAccessor (VRef y))) ->
  read wc l k = VRef y.
Proof.
  intros [Hh _] Hp. unfold read.
  destruct Hp as [Hp|Hp]; destruct (obj_le_own_prop _ _ _ _ (obj_of_le _ _ l Hh) Hp) as [p' [Hp' Hpp]];
    rewrite Hp'; destruct Hpp as [->|[[x [Hx ->]]|[g [x [Hx _]]]]]; try discriminate;
    try (injection Hx as <-); reflexivity.
Qed.

(** [observe] of an object on a cycle overflows the stack, whatever the
    fuel: each call reaches the next object of the cycle before it returns *)
Lemma observe_circular (fuel : nat) :
  forall (w : world) (x : loc) (r : list loc),
  chain w x r x = true -> fst (observe fuel (VRef x) w) = Exn stack_overflow.
Proof.
  induction fuel as [|fuel IH]; intros w x r Hc; [reflexivity|].
  destruct (chain_rotate _ _ _ Hc) as [y [r' [Hl Hc']]].
  destruct (links_into_spec _ _ _ Hl) as [k [Hk Hp]].
  cbn [observe]. unfold get_obj, mbind, M_bind, mret, M_ret, get_world.
  match goal with |- fst (?F (own_keys (obj_of w x)) w) = _ => set (each := F) end.
  assert (H : forall ks wc,
    (forall k', k' ∈ ks -> exists p, own_prop (obj_of w x) k' = Some p) -> world_le w wc ->
    k ∈ ks -> fst (each ks wc) = Exn stack_overflow).
  { subst each. induction ks as [|k0 ks IHks]; intros wc Hks Hwc Hin; [inversion Hin|].
    cbn -[observe define_prop read].
    destruct (Hks k0 (proj2 (elem_of_cons _ _ _) (or_introl eq_refl))) as [p0 Hp0].
    destruct (decide (k0 = k)) as [->|Hne].
    - rewrite (read_link _ _ _ _ _ Hwc Hp). cbn [is_object].
      pose proof (IH wc y r' (chain_le _ _ _ _ _ Hwc Hc')) as Ho.
      destruct (observe fuel (VRef y) wc) as [o1 w1]. cbn in Ho. subst o1. reflexivity.
    - apply elem_of_cons in Hin as [Hin|Hin]; [congruence|].
      destruct (obj_le_own_prop _ _ _ _ (obj_of_le _ _ x (proj1 Hwc)) Hp0) as [pc [Hpc Hle]].
      pose proof (read_accessor_le _ _ _ _ _ Hpc Hle) as Hacc.
      assert (Hobs : let '(o1, w1) := (if is_object (read wc x k0) then observe fuel (read wc x k0)
                                       else fun w1 : world => (Ok (), w1)) wc in
                     world_le wc w1 /\ (o1 = Ok () \/ o1 = Exn stack_overflow)).
      { destruct (is_object _); [apply observe_le|split; [apply world_le_refl|left; reflexivity]]. }
      destruct ((if is_object (read wc x k0) then observe fuel (read wc x k0)
                 else fun w1 : world => (Ok (), w1)) wc) as [o1 w1].
      destruct Hobs as [Hw1 [->| ->]]; [|reflexivity].
      pose proof (world_le_trans _ _ _ Hwc Hw1) as Hw01.
      destruct (define_le _ _ _ _ _ _ Hw01 Hp0 Hacc) as [Ed Hw2].
      rewrite Ed. apply IHks; [|exact Hw2|exact Hin].
      intros k' Hk'. apply Hks. apply elem_of_cons. right. exact Hk'. }
  apply H; [intros k' Hk'; apply own_keys_own_prop; exact Hk'|apply world_le_refl|exact Hk].
Qed.

Lemma links_into_same (w w' : world) (l l' : loc) :
  obj_of w' l = obj_of w l -> links_into w' l l' = links_into w l l'.
Proof. intros E. unfold links_into. rewrite E. reflexivity. Qed.

Lemma chain_same (w w' : world) (x : loc) (r : list loc) (l0 : loc) :
  (forall z, z ∈ x :: r -> obj_of w' z = obj_of w z) -> chain w' x r l0 = chain w x r l0.
Proof.
  revert x. induction r as [|y r IH]; intros x Hs; cbn [chain].
  - apply links_into_same, Hs, elem_of_cons. left. reflexivity.
  - rewrite (links_into_same w w' x y) by (apply Hs, elem_of_cons; left; reflexivity).
    rewrite IH; [reflexivity|]. intros z Hz. apply Hs, elem_of_cons. right. exact Hz.
Qed.

Lemma store_cell_obj_other (w : world) (l z : loc) (k : string) (v : val) :
  z ≠ l -> obj_of (store_cell l k v w) z = obj_of w z.
Proof. intros Hne. unfold store_cell, obj_of. simpl. rewrite lookup_insert_ne by congruence. reflexivity. Qed.

Lemma store_cell_own_ne (w : world) (l : loc) (k k' : string) (v : val) :
  k' ≠ k -> own_prop (obj_of (store_cell l k v w) l) k' = own_prop (obj_of w l) k'.
Proof.
  intros Hne. unfold store_cell, obj_of at 1. simpl. rewrite lookup_insert_eq. simpl.
  apply own_prop_set_own_ne. exact Hne.
Qed.

Lemma store_cell_keys (w : world) (l z : loc) (k k' : string) (v : val) :
  k' ∈ own_keys (obj_of w z) -> k' ∈ own_keys (obj_of (store_cell l k v w) z).
Proof.
  intros H. destruct (decide (z = l)) as [->|Hne]; [|rewrite store_cell_obj_other; assumption].
  destruct (decide (k' = k)) as [->|Hk].
  - eapply own_prop_elem_of_keys. apply store_cell_own.
  - destruct (own_keys_own_prop _ _ H) as [p Hp].
    eapply own_prop_elem_of_keys. rewrite store_cell_own_ne by exact Hk. exact Hp.
Qed.

(** the store of the setter does not break a cycle it is not on *)
Lemma circular_store_cell (w : world) (l lv : loc) (ls : list loc) (k : string) (v : val) :
  circular w (lv :: ls) = true -> l ∉ lv :: ls -> chain (store_cell l k v w) lv ls lv = true.
Proof.
  intros Hc Hn. cbn [circular] in Hc. rewrite chain_same with (w := w); [exact Hc|].
  intros z Hz. apply store_cell_obj_other. intros ->. contradiction.
Qed.

(** the instrumentation of the new value in the setter *)
Lemma instrument_circular (w : world) (l : loc) (k : string) (v : val) :
  forall lv ls, v = VRef lv -> circular w (lv :: ls) = true -> l ∉ lv :: ls ->
  fst ((if is_object v then observe stack_limit v else mret ()) (store_cell l k v w)) =
    Exn stack_overflow.
Proof.
  intros lv ls -> Hc Hn.
  exact (observe_circular _ _ _ _ (circular_store_cell _ _ _ _ k (VRef lv) Hc Hn)).
Qed.

Lemma instrument_accessors (w : world) (l : loc) (k : string) (v : val) :
  let '(o, wb) := (if is_object v then observe stack_limit v else mret ()) (store_cell l k v w) in
  o = Ok () -> forall lv, v = VRef lv -> forall k', k' ∈ own_keys (obj_of w lv) ->
  exists x, own_prop (obj_of wb lv) k' = Some (PAccessor x).
Proof.
  destruct v as [| | | | | |l0| |]; cbn [is_object]; try (intros _ lv Hv; discriminate).
  pose proof (observe_ok_accessors stack_limit l0 (store_cell l k (VRef l0) w)) as H.
  destruct (observe stack_limit (VRef l0) (store_cell l k (VRef l0) w)) as [o wb].
  intros Ho lv [= <-] k' Hk'. apply H; [exact Ho|apply store_cell_keys; exact Hk'].
Qed.

(** *** C3: writes through an instrumented property *)

(** C3 (amended): for a property [k] of the observed object at [l] that
    holds the accessor cell [old], a write of a value [===] to [old] is a
    no-op.  Any other write stores [v] in the cell and instruments [v]:
    when that returns, every own property of the object [v] holds an
    accessor, and the change callback has been called exactly once before
    the write returns; otherwise the write throws a RangeError with no
    callback call, which happens whenever [v] is an object on a cycle of
    objects that does not pass through [l].  Writing the same value again
    is then a no-op, unless it is NaN. *)
Theorem write_through_accessor (w : world) (l : loc) (k : string) (old v : val) :
  own_prop (obj_of w l) k = Some (PAccessor old) ->
  let '(o, w1) := put record_change l k v w in
  (strict_eq old v = true -> o = Ok () /\ w1 = w) /\
  (strict_eq old v = false ->
     own_prop (obj_of w1 l) k = Some (PAccessor v) /\
     (o = Ok () -> trace w1 = trace w ++ [EChange k v old]) /\
     (o ≠ Ok () -> o = Exn stack_overflow /\ trace w1 = trace w) /\
     (o = Ok () -> forall lv, v = VRef lv -> forall k', k' ∈ own_keys (obj_of w lv) ->
        exists x, own_prop (obj_of w1 lv) k' = Some (PAccessor x)) /\
     (forall lv ls, v = VRef lv -> circular w (lv :: ls) = true -> l ∉ lv :: ls ->
        o = Exn stack_overflow)) /\
  (o = Ok () -> v ≠ VNaN -> put record_change l k v w1 = (Ok (), w1)).
Proof.
  intros Hp. destruct (strict_eq old v) eqn:E.
  - rewrite (put_accessor_same _ _ _ _ _ _ Hp E).
    split; [auto|split; [discriminate|]]. intros _ _.
    apply (put_accessor_same _ _ _ _ _ _ Hp E).
  - rewrite (put_accessor_distinct _ _ _ _ _ _ Hp E).
    pose proof (instrument_le v (store_cell l k v w)) as Hi.
    pose proof (instrument_circular w l k v) as Hcirc.
    pose proof (instrument_accessors w l k v) as Hinst.
    revert Hi Hcirc Hinst.
    destruct ((if is_object v then observe stack_limit v else mret ()) (store_cell l k v w))
      as [o1 wb] eqn:Eo.
    intros Hi Hcirc Hinst.
    destruct Hi as [Hle [-> | ->]].
    + pose proof (world_le_accessor _ _ _ _ _ Hle (store_cell_own w l k v)) as Hc.
      assert (Ht : trace wb = trace w).
      { rewrite (world_le_trace _ _ Hle). destruct w; reflexivity. }
      unfold record_change, modify.
      assert (Hc' : own_prop (obj_of (with_trace (trace wb ++ [EChange k v old]) wb) l) k
                    = Some (PAccessor v)) by (destruct wb; exact Hc).
      split; [discriminate|split].
      * intros _. split; [exact Hc'|]. split; [intros _; simpl; rewrite Ht; reflexivity|].
        split; [congruence|]. split.
        -- intros _ lv Hv k' Hk'. destruct (Hinst eq_refl lv Hv k' Hk') as [x Hx].
           exists x. destruct wb; exact Hx.
        -- intros lv ls Hv Hcy Hn. specialize (Hcirc lv ls Hv Hcy Hn). discriminate Hcirc.
      * intros _ Hnan. apply (put_accessor_same _ _ _ _ _ _ Hc'). apply strict_eq_refl. exact Hnan.
    + split; [discriminate|split].
      * intros _. split; [exact (world_le_accessor _ _ _ _ _ Hle (store_cell_own w l k v))|].
        split; [discriminate|]. split.
        -- intros _. split; [reflexivity|]. rewrite (world_le_trace _ _ Hle). destruct w; reflexivity.
        -- split; [discriminate|]. intros; reflexivity.
      * discriminate.
Qed.

Lemma write_through_accessor_witness :
  own_prop (obj_of observed_world 2%positive) "k" = Some (PAccessor (VNum 0)) /\
  let '(o, w1) := put record_change 2%positive "k" (VRef 3%positive) observed_world in
  (strict_eq (VNum 0) (VRef 3%positive) = true -> o = Ok () /\ w1 = observed_world) /\
  (strict_eq (VNum 0) (VRef 3%positive) = false ->
     own_prop (obj_of w1 2%positive) "k" = Some (PAccessor (VRef 3%positive)) /\
     (o = Ok () -> trace w1 = trace observed_world ++ [EChange "k" (VRef 3%positive) (VNum 0)]) /\
     (o ≠ Ok () -> o = Exn stack_overflow /\ trace w1 = trace observed_world) /\
     (o = Ok () -> forall lv, VRef 3%positive = VRef lv -> forall k', k' ∈ own_keys (obj_of observed_world lv) ->
        exists x, own_prop (obj_of w1 lv) k' = Some (PAccessor x)) /\
     (forall lv ls, VRef 3%positive = VRef lv -> circular observed_world (lv :: ls) = true ->
        2%positive ∉ lv :: ls -> o = Exn stack_overflow)) /\
  (o = Ok () -> VRef 3%positive ≠ VNaN -> put record_change 2%positive "k" (VRef 3%positive) w1 = (Ok (), w1)).
Proof.
  assert (H : own_prop (obj_of observed_world 2%positive) "k" = Some (PAccessor (VNum 0))) by reflexivity.
  split; [exact H|exact (write_through_accessor observed_world 2%positive "k" (VNum 0) (VRef 3%positive) H)].
Defined.

(** C3: writing NaN twice calls the change callback twice, and a write
    of a cyclic object throws a RangeError without calling it. *)
Lemma write_through_accessor_counterexample :
  trace (snd ((put record_change 2%positive "k" VNaN ;; put record_change 2%positive "k" VNaN) observed_world)) =
    [EChange "k" VNaN (VNum 0); EChange "k" VNaN VNaN] /\
  fst (put record_change 2%positive "k" (VRef 3%positive) observed_world) = Exn stack_overflow /\
  trace (snd (put record_change 2%positive "k" (VRef 3%positive) observed_world)) = [].
Proof. vm_compute. repeat split. Qed.

Lemma put_absent (cb : observer_cb) (w : world) (l : loc) (k : string) (v : val) :
  own_prop (obj_of w l) k = None -> String.eqb k "__proto__" = false ->
  put cb l k v w = (Ok (), with_heap (<[l := set_own (obj_of w l) k (PData v)]> (heap w)) w).
Proof.
  intros Hp E. unfold put, get_obj, mbind, M_bind, get_world, mret, M_ret. cbn -[observe].
  rewrite Hp, E. reflexivity.
Qed.

Lemma proto_member_none_not_proto (k : string) :
  proto_member k = None -> String.eqb k "__proto__" = false.
Proof. unfold proto_member. destruct (String.eqb k "__proto__"); [discriminate|reflexivity]. Qed.

(** *** Frames of rendering *)

Lemma hframe_refl (x : loc) (w : world) : hframe x w w.
Proof. repeat split; auto. Qed.

Lemma hframe_trans (x : loc) (w1 w2 w3 : world) :
  hframe x w1 w2 -> hframe x w2 w3 -> hframe x w1 w3.
Proof.
  intros (Ha & ? & ? & ? & ? & ? & ? & ?) (Hb & ? & ? & ? & ? & ? & ? & ?).
  split; [intros l o Hl Ho; apply Hb, Ha; assumption|]. repeat split; congruence.
Qed.

Lemma mframe_ret {A} (x : loc) (a : A) : mframe x (mret a).
Proof. intros w. apply hframe_refl. Qed.

Lemma mframe_throw {A} (x : loc) (e : exn) : mframe x (throw (A:=A) e).
Proof. intros w. apply hframe_refl. Qed.

Lemma mframe_get_world (x : loc) : mframe x get_world.
Proof. intros w. apply hframe_refl. Qed.

Lemma mframe_bind {A B} (x : loc) (m : M A) (f : A -> M B) :
  mframe x m -> (forall a, mframe x (f a)) -> mframe x (m ≫= f).
Proof.
  intros Hm Hf w. specialize (Hm w). rewrite bind_run.
  destruct (m w) as [[a|e] w'] eqn:E; simpl in *; [|exact Hm].
  eapply hframe_trans; [exact Hm|apply Hf].
Qed.

Lemma mframe_get_bind {B} (x : loc) (f : world -> M B) :
  (forall w, mframe x (f w)) -> mframe x (get_world ≫= f).
Proof. intros Hf w. apply (Hf w w). Qed.

Lemma mframe_log_console (x : loc) (msg : string) : mframe x (log_console msg).
Proof. intros w. repeat split; auto. Qed.

Lemma mframe_define_prop (x : loc) (k : string) (p : prop) : mframe x (define_prop x k p).
Proof.
  intros w. unfold define_prop, modify. simpl. repeat split; auto.
  intros l o Hl Ho. simpl. rewrite lookup_insert_ne by congruence. exact Ho.
Qed.

Lemma mframe_alloc (x : loc) (o : jsobj) : mframe x (alloc o).
Proof.
  intros w. unfold alloc, modify. simpl. repeat split; auto.
  intros l o' _ Ho. simpl. rewrite lookup_insert_ne; [exact Ho|].
  intros E. apply (is_fresh (dom (heap w) ∪ {[object_prototype]})).
  rewrite E. apply elem_of_union_l. apply elem_of_dom. eauto.
Qed.

Lemma alloc_fresh (o : jsobj) (w : world) :
  let '(r, w') := alloc o w in
  exists l, r = Ok l /\ heap w !! l = None /\ heap w' = <[l := o]> (heap w).
Proof.
  unfold alloc, modify. simpl. eexists. split; [reflexivity|split; [|reflexivity]].
  apply not_elem_of_dom. intros Hin.
  apply (is_fresh (dom (heap w) ∪ {[object_prototype]})). apply elem_of_union_l. exact Hin.
Qed.

Lemma mframe_extend_into (x : loc) (src : option loc) : mframe x (extend_into x src).
Proof.
  destruct src as [s|]; [|apply mframe_ret].
  unfold extend_into, get_obj. apply mframe_bind; [apply mframe_get_bind; intros; apply mframe_ret|].
  intros o. induction (own_keys o) as [|k ks IH]; [apply mframe_ret|].
  cbn [extend_keys]. apply mframe_get_bind. intros w.
  destruct (negb _); [apply mframe_throw|].
  destruct (is_object (read w s k) && is_object (read w x k)); [apply mframe_throw|].
  destruct (String.eqb k "__proto__"); [apply mframe_throw|].
  apply mframe_bind; [apply mframe_define_prop|intros _; exact IH].
Qed.

Lemma mframe_compile (x : loc) (t : string) : mframe x (compile t).
Proof.
  unfold compile. apply mframe_get_bind. intros w.
  destruct (engine w) as [cache|]; [|apply mframe_throw].
  destruct (cache !! t); [apply mframe_ret|].
  destruct (proto_member t); [apply mframe_ret|].
  apply mframe_bind; [|intros; apply mframe_ret].
  intros w'. unfold modify. repeat split; auto.
Qed.

Section Frames.
Variable ev : world -> loc -> string -> outcome val.

Lemma mframe_eval_token (x ctx : loc) (t : token) : mframe x (eval_token ev ctx t).
Proof.
  destruct t as [s|e]; [apply mframe_ret|]. unfold eval_token.
  apply mframe_get_bind. intros w.
  destruct (ev w ctx e) as [v|e']; [apply mframe_ret|].
  destruct (exn_message w e'); [|apply mframe_throw].
  apply mframe_bind; [apply mframe_log_console|intros; apply mframe_ret].
Qed.

Lemma mframe_map_tokens (x ctx : loc) (ts : list token) : mframe x (map_tokens ev ctx ts).
Proof.
  induction ts as [|t ts IH]; [apply mframe_ret|]. simpl.
  apply mframe_bind; [apply mframe_eval_token|intros v].
  apply mframe_bind; [exact IH|intros; apply mframe_ret].
Qed.

Lemma mframe_run_renderer (x ctx : loc) (r : renderer) : mframe x (run_renderer ev r ctx).
Proof.
  unfold run_renderer. apply mframe_bind; [apply mframe_map_tokens|intros vs].
  apply mframe_get_bind. intros w. destruct (join_all w vs); [apply mframe_ret|apply mframe_throw].
Qed.

Lemma mframe_template_render (x ctx : loc) (t : string) : mframe x (template_render ev t ctx).
Proof.
  unfold template_render. apply mframe_bind; [apply mframe_compile|intros c].
  destruct c as [r|v]; simpl; [apply mframe_run_renderer|].
  destruct v; try apply mframe_throw.
  destruct (String.eqb _ "toString"); [apply mframe_ret|].
  destruct (String.eqb _ "constructor"); [apply mframe_ret|].
  destruct (String.eqb _ "toLocaleString"); [apply mframe_throw|].
  destruct (_ || _); [|apply mframe_throw].
  apply mframe_get_bind. intros w w0. unfold throw.
  match goal with |- context [match ?m with Ok _ => _ | Exn _ => _ end] => destruct m end; apply hframe_refl.
Qed.

End Frames.

Lemma template_data_frame (w : world) :
  exists ctx, heap w !! ctx = None /\ hframe ctx w (snd (template_data w)) /\
    (fst (template_data w) = Ok ctx \/ exists x, fst (template_data w) = Exn x).
Proof.
  unfold template_data. rewrite bind_run. cbn [get_world]. rewrite bind_run.
  pose proof (alloc_fresh [] w) as Ha.
  destruct (alloc [] w) as [r1 w1] eqn:Ea. destruct Ha as [ctx [-> [Hfresh Hh1]]].
  exists ctx. split; [exact Hfresh|].
  assert (Hf1 : hframe ctx w w1) by (pose proof (mframe_alloc ctx [] w) as H; rewrite Ea in H; exact H).
  rewrite bind_run. pose proof (mframe_extend_into ctx (kdata w) w1) as H2.
  destruct (extend_into ctx (kdata w) w1) as [[[]|x] w2]; cbn [snd] in H2;
    pose proof (hframe_trans _ _ _ _ Hf1 H2) as Hf2; [|split; [exact Hf2|right; eauto]].
  rewrite bind_run. pose proof (mframe_extend_into ctx (kcomputed w) w2) as H3.
  destruct (extend_into ctx (kcomputed w) w2) as [[[]|x] w3]; cbn [snd] in H3;
    pose proof (hframe_trans _ _ _ _ Hf2 H3) as Hf3; [|split; [exact Hf3|right; eauto]].
  split; [exact Hf3|left; reflexivity].
Qed.

Ltac noop_branch :=
  unfold mret, M_ret, throw; cbn beta iota; split; [auto|];
  do 5 (split; [congruence|]); split; [left; split; congruence|].

Lemma hframe_fresh (x : loc) (w w' : world) :
  hframe x w w' -> heap w !! x = None ->
  forall l o, heap w !! l = Some o -> heap w' !! l = Some o.
Proof. intros [H _] Hx l o Ho. apply H; [congruence|exact Ho]. Qed.

Ltac close_frame Hf Hfresh :=
  let Hh := fresh in
  pose proof (hframe_fresh _ _ _ Hf Hfresh) as Hh;
  destruct Hf as (_ & ? & ? & ? & ? & ? & ? & ?);
  unfold throw; cbn beta iota;
  split; [exact Hh|]; do 5 (split; [congruence|]);
  split; [left; split; congruence|intros; congruence].

Lemma template_truthy_some (o : kopts) :
  template_truthy o = true -> exists t, template o = Some t /\ String.eqb t String.EmptyString = false.
Proof.
  unfold template_truthy. destruct (template o) as [t|]; [|discriminate].
  intros H. exists t. split; [reflexivity|]. destruct (String.eqb t _); [discriminate|reflexivity].
Qed.

(** [_renderTemplate] changes no object the world had before, nor the
    component's fields or listeners; it leaves the trace and the target as
    they were, or appends one assignment of the target's innerHTML; and
    when it returns with a truthy template and a target, it did the
    latter. *)
Lemma render_template_spec (ev : world -> loc -> string -> outcome val) (w : world) :
  let '(r, w') := render_template ev w in
  (forall l o, heap w !! l = Some o -> heap w' !! l = Some o) /\
  kdata w' = kdata w /\ kcomputed w' = kcomputed w /\ options w' = options w /\
  events w' = events w /\ tasks w' = tasks w /\
  ((trace w' = trace w /\ el w' = el w) \/
   (exists s, r = Ok () /\ trace w' = trace w ++ [EHtml s] /\ el w' = Some s)) /\
  (r = Ok () -> forall o, options w = Some o -> template_truthy o = true -> el w ≠ None ->
   exists s, trace w' = trace w ++ [EHtml s] /\ el w' = Some s).
Proof.
  unfold render_template. rewrite bind_run. cbn [get_world].
  destruct (el w) as [e|] eqn:Hel.
  2: { noop_branch. intros; congruence. }
  destruct (options w) as [o|] eqn:Ho.
  2: { noop_branch. intros; congruence. }
  destruct (template o) as [t|] eqn:Ht.
  2: { noop_branch. intros _ o' [= <-] Htr. unfold template_truthy in Htr. rewrite Ht in Htr. discriminate. }
  destruct (String.eqb t String.EmptyString) eqn:Et.
  { noop_branch. intros _ o' [= <-] Htr. unfold template_truthy in Htr. rewrite Ht, Et in Htr. discriminate. }
  rewrite bind_run.
  destruct (template_data_frame w) as (ctx & Hfresh & Hf3 & Hr).
  destruct (template_data w) as [[c|x] w3]; cbn [fst snd] in Hf3, Hr;
    [destruct Hr as [[= ->]|[x Hx]]; [|discriminate]|close_frame Hf3 Hfresh].
  rewrite bind_run. pose proof (mframe_template_render ev ctx ctx t w3) as H4.
  destruct (template_render ev t ctx w3) as [[html|x] w4]; simpl in H4;
    pose proof (hframe_trans _ _ _ _ Hf3 H4) as Hf4; [|close_frame Hf4 Hfresh].
  rewrite bind_run. cbn [get_world].
  destruct (to_string w4 html) as [s|x]; [|close_frame Hf4 Hfresh].
  pose proof (hframe_fresh _ _ _ Hf4 Hfresh) as Hh.
  destruct Hf4 as (_ & ? & ? & ? & ? & ? & Htr & ?).
  unfold modify, push_trace, mbind, M_bind; cbn.
  split; [exact Hh|]. do 5 (split; [congruence|]).
  split; [right; exists s; rewrite Htr; auto|].
  intros _ _ _ _ _. exists s. rewrite Htr. auto.
Qed.

(** *** The observer callback of a component *)

Lemma call_all_trace (k : string) (nv ov : val) (ls : list watcher) (w : world) :
  call_all k nv ov ls w = (Ok (), with_trace (trace w ++ watcher_calls ls k nv ov) w).
Proof.
  revert w. induction ls as [|x ls IH]; intros w; simpl.
  - rewrite app_nil_r. destruct w; reflexivity.
  - rewrite bind_run. unfold call_watcher.
    destruct (String.eqb k (wkey x)) eqn:E; simpl.
    + rewrite IH. unfold watcher_calls. rewrite filter_cons, E. simpl.
      rewrite <- app_assoc. destruct w; reflexivity.
    + rewrite IH. unfold watcher_calls. rewrite filter_cons, E. reflexivity.
Qed.

Lemma emit_trace (k : string) (nv ov : val) (w : world) :
  snd (emit_data_change k nv ov w) = with_trace (trace w ++ watcher_calls (listeners w) k nv ov) w /\
  exists b, fst (emit_data_change k nv ov w) = Ok b.
Proof.
  unfold emit_data_change, listeners. rewrite bind_run. cbn [get_world].
  destruct (assoc_get "dataChange" (events w)) as [ls|]; simpl.
  - rewrite bind_run, call_all_trace. simpl. eauto.
  - rewrite app_nil_r. split; [destruct w; reflexivity|eauto].
Qed.

Lemma kiwi_callback_run (ev : world -> loc -> string -> outcome val) (k : string) (nv ov : val)
    (w : world) (o : kopts) :
  options w = Some o ->
  kiwi_callback ev k nv ov w =
  (if template_truthy o && bool_decide (el w ≠ None) then render_template ev else mret ())
    (with_trace (trace w ++ watcher_calls (listeners w) k nv ov) w).
Proof.
  intros Ho. unfold kiwi_callback. rewrite bind_run.
  destruct (emit_trace k nv ov w) as [Hs [b Hb]].
  destruct (emit_data_change k nv ov w) as [r w'] eqn:E. simpl in Hs, Hb. subst r w'.
  rewrite bind_run. cbn [get_world]. destruct w; simpl in *. rewrite Ho. reflexivity.
Qed.

Lemma world_le_fields (w w' : world) :
  world_le w w' ->
  options w' = options w /\ el w' = el w /\ trace w' = trace w /\ events w' = events w /\
  kdata w' = kdata w /\ listeners w' = listeners w.
Proof. intros [_ ->]. destruct w; repeat split. Qed.

(** *** C9: writes to nested containers *)

(** the setter of an instrumented property, in a component: after the
    store and the instrumentation, the observer callback *)
Lemma put_callback_run (ev : world -> loc -> string -> outcome val) (w : world) (l : loc)
    (k : string) (old v : val) (o : kopts) :
  options w = Some o ->
  own_prop (obj_of w l) k = Some (PAccessor old) ->
  strict_eq old v = false ->
  put (kiwi_callback ev) l k v w =
  match (if is_object v then observe stack_limit v else mret ()) (store_cell l k v w) with
  | (Ok _, wb) =>
      (if template_truthy o && bool_decide (el w ≠ None) then render_template ev else mret ())
        (with_trace (trace w ++ watcher_calls (listeners w) k v old) wb)
  | (Exn x, wb) => (Exn x, wb)
  end.
Proof.
  intros Ho Hp Hd.
  rewrite (put_accessor_distinct _ _ _ _ _ _ Hp Hd).
  pose proof (instrument_le v (store_cell l k v w)) as Hle.
  destruct ((if is_object v then observe stack_limit v else mret ()) (store_cell l k v w))
    as [[[]|x] wb]; [|reflexivity]. destruct Hle as [Hle _].
  destruct (world_le_fields _ _ Hle) as (Ho' & Hel' & Htr' & _ & _ & Hls').
  assert (Ho'' : options wb = Some o) by (rewrite Ho'; destruct w; exact Ho).
  rewrite (kiwi_callback_run ev k v old wb o Ho'').
  rewrite Hel', Htr', Hls'. destruct w; reflexivity.
Qed.




(** *** C10: [$set] of a key the data does not have *)




(** *** C1: [$set] with a mapping *)

Lemma put_tracked_run (ev : world -> loc -> string -> outcome val) (w : world) (d : loc)
    (k : string) (old v : val) (o : kopts) :
  options w = Some o -> own_prop (obj_of w d) k = Some (PAccessor old) ->
  strict_eq old v = false -> is_object v = false ->
  put (kiwi_callback ev) d k v w =
  (if template_truthy o && bool_decide (el w ≠ None) then render_template ev else mret ())
    (with_trace (trace w ++ watcher_calls (listeners w) k v old) (store_cell d k v w)).
Proof.
  intros Ho Hp Hd Hv. rewrite (put_accessor_distinct _ _ _ _ _ _ Hp Hd), Hv.
  unfold mret, M_ret. cbn beta iota.
  assert (Ho' : options (store_cell d k v w) = Some o) by (destruct w; exact Ho).
  rewrite (kiwi_callback_run ev k v old _ o Ho'). destruct w; reflexivity.
Qed.

Lemma store_cell_other (w : world) (d : loc) (k k' : string) (v x : val) :
  k' ≠ k -> own_prop (obj_of w d) k' = Some (PAccessor x) ->
  own_prop (obj_of (store_cell d k v w) d) k' = Some (PAccessor x).
Proof.
  intros Hne Hp. unfold store_cell, obj_of. simpl. rewrite lookup_insert_eq. simpl.
  rewrite own_prop_set_own_ne by exact Hne. exact Hp.
Qed.

Lemma obj_of_keep (w w' : world) (d : loc) :
  (forall l o, heap w !! l = Some o -> heap w' !! l = Some o) ->
  (exists o, heap w !! d = Some o) -> obj_of w' d = obj_of w d.
Proof. intros H [o Ho]. pose proof (H d o Ho) as H1. unfold obj_of, jsobj in *. rewrite H1, Ho. reflexivity. Qed.

Lemma obj_of_with_trace (t : list effect) (w : world) (l : loc) :
  obj_of (with_trace t w) l = obj_of w l.
Proof. destruct w; reflexivity. Qed.

Lemma read_with_trace (t : list effect) (w : world) (l : loc) (k : string) :
  read (with_trace t w) l k = read w l k.
Proof. destruct w; reflexivity. Qed.

Lemma read_accessor (w : world) (l : loc) (k : string) (x : val) :
  own_prop (obj_of w l) k = Some (PAccessor x) -> read w l k = x.
Proof. intros H. unfold read. rewrite H. reflexivity. Qed.

Lemma with_trace_store_cell_fields (t : list effect) (d : loc) (k : string) (v : val) (w : world) :
  kdata (with_trace t (store_cell d k v w)) = kdata w /\
  options (with_trace t (store_cell d k v w)) = options w /\
  el (with_trace t (store_cell d k v w)) = el w /\
  events (with_trace t (store_cell d k v w)) = events w.
Proof. destruct w; repeat split. Qed.

(** one [$set(k, v)] on a tracked key [k] of the data, with a value that
    is not an object and not [===] to the current one, in a component with
    a truthy template and a target: the store, the watchers of [k], one
    render, and the instrumentation of the data object again when the old
    value was [undefined] *)
Lemma kiwi_set_tracked_eq (ev : world -> loc -> string -> outcome val) (w : world) (d : loc)
    (k : string) (old v : val) (o : kopts) :
  kdata w = Some d -> options w = Some o -> template_truthy o = true -> el w ≠ None ->
  own_prop (obj_of w d) k = Some (PAccessor old) -> strict_eq old v = false -> is_object v = false ->
  kiwi_set ev k v w =
  (render_template ev ;; (if strict_eq old VUndef then observe stack_limit (VRef d) else mret ()))
    (with_trace (trace w ++ watcher_calls (listeners w) k v old) (store_cell d k v w)).
Proof.
  intros Hd Ho Ht Hel Hp Hs Hv.
  assert (Hr : read w d k = old) by (unfold read; rewrite Hp; reflexivity).
  assert (E : kiwi_set ev k v w =
              if strict_eq old VUndef
              then (put (kiwi_callback ev) d k v ;; observe stack_limit (VRef d)) w
              else put (kiwi_callback ev) d k v w).
  { unfold kiwi_set, need_data, get_world. rewrite !bind_run. rewrite Hd.
    unfold mret, M_ret. cbn beta iota. rewrite bind_run. rewrite Hr.
    destruct (strict_eq old VUndef); reflexivity. }
  rewrite E. clear E.
  assert (Ec : template_truthy o && bool_decide (el w ≠ None) = true)
    by (rewrite Ht; apply bool_decide_eq_true_2; exact Hel).
  pose proof (put_tracked_run ev w d k old v o Ho Hp Hs Hv) as Hput. rewrite Ec in Hput.
  destruct (strict_eq old VUndef).
  - rewrite !bind_run, Hput. reflexivity.
  - rewrite bind_run, Hput.
    match goal with |- ?m = _ => destruct m as [[[]|x] w1] end; reflexivity.
Qed.

(** what the render and the instrumentation of the data object after it
    keep *)
Lemma cycle_reinstr_post (ev : world -> loc -> string -> outcome val) (wc : world) (d : loc)
    (old : val) :
  (exists o, heap wc !! d = Some o) ->
  let '(r, w') := (render_template ev ;;
                   (if strict_eq old VUndef then observe stack_limit (VRef d) else mret ())) wc in
  kdata w' = kdata wc /\ options w' = options wc /\ events w' = events wc /\
  (el wc ≠ None -> el w' ≠ None) /\
  (forall k x, own_prop (obj_of wc d) k = Some (PAccessor x) ->
     own_prop (obj_of w' d) k = Some (PAccessor x)).
Proof.
  intros Hdom. rewrite bind_run.
  pose proof (render_template_spec ev wc) as Hr.
  destruct (render_template ev wc) as [r w1].
  destruct Hr as (Hh & Hkd & _ & Hop & Hev & _ & Hel & _).
  assert (Hacc : forall k x, own_prop (obj_of wc d) k = Some (PAccessor x) ->
                 own_prop (obj_of w1 d) k = Some (PAccessor x)).
  { intros k x Hp. rewrite (obj_of_keep _ _ _ Hh Hdom). exact Hp. }
  assert (Hel1 : el wc ≠ None -> el w1 ≠ None).
  { intros H. destruct Hel as [[_ ->]|[s [_ [_ ->]]]]; [exact H|discriminate]. }
  destruct r as [[]|x]; cbv beta iota.
  2: { split; [exact Hkd|split; [exact Hop|split; [exact Hev|split; [exact Hel1|exact Hacc]]]]. }
  assert (Hle : let '(r2, w2) := (if strict_eq old VUndef then observe stack_limit (VRef d) else mret ()) w1 in
                world_le w1 w2).
  { destruct (strict_eq old VUndef).
    - pose proof (observe_le stack_limit (VRef d) w1) as H.
      destruct (observe stack_limit (VRef d) w1). exact (proj1 H).
    - exact (world_le_refl w1). }
  destruct ((if strict_eq old VUndef then observe stack_limit (VRef d) else mret ()) w1) as [r2 w2].
  destruct (world_le_fields _ _ Hle) as (Ho2 & Hel2 & _ & Hev2 & Hkd2 & _).
  split; [congruence|split; [congruence|split; [congruence|split]]].
  - rewrite Hel2. exact Hel1.
  - intros k x Hp. apply (world_le_accessor _ _ _ _ _ Hle). apply Hacc. exact Hp.
Qed.




(** *** Rendering a token list *)

Lemma eval_token_returns ev w ctx t :
  token_returns ev w ctx t -> exists v, eval_token ev ctx t w = (Ok v, w).
Proof.
  destruct t as [s|e]; cbn.
  - intros _. eexists. reflexivity.
  - intros [v Hv]. unfold mbind, M_bind, get_world, mret, M_ret. cbn. rewrite Hv.
    eexists. reflexivity.
Qed.

Lemma map_tokens_prefix_exn ev ctx pre ts w y :
  (forall t, t ∈ pre -> token_returns ev w ctx t) ->
  map_tokens ev ctx ts w = (Exn y, w) ->
  map_tokens ev ctx (pre ++ ts) w = (Exn y, w).
Proof.
  induction pre as [|t pre IH]; intros Hpre Hts; [exact Hts|].
  cbn [app map_tokens]. rewrite bind_run.
  destruct (eval_token_returns ev w ctx t) as [v Hv]; [apply Hpre; left|].
  rewrite Hv, bind_run, IH; [reflexivity| |exact Hts].
  intros t' Ht'. apply Hpre. right. exact Ht'.
Qed.

(** C5: when the value thrown by an expression has no readable [message]
    ([throw null], [throw undefined], or an object whose [message] cannot be
    converted), the [catch] block itself throws: the render of the whole
    template fails with that second exception, nothing is logged, and the
    tokens after the failing one are never evaluated.  The tokens before it
    are texts or expressions that return. *)
Theorem token_failure_escapes (ev : world -> loc -> string -> outcome val) (w : world)
    (r : renderer) (ctx : loc) (pre post : list token) (e : string) (x y : exn) :
  rtokens r = pre ++ TExpr e :: post ->
  (forall t, t ∈ pre -> token_returns ev w ctx t) ->
  ev w ctx e = Exn x -> exn_message w x = Exn y ->
  run_renderer ev r ctx w = (Exn y, w).
Proof.
  intros Hr Hpre Hx Hy. unfold run_renderer. rewrite bind_run, Hr.
  rewrite (map_tokens_prefix_exn ev ctx pre (TExpr e :: post) w y Hpre); [reflexivity|].
  cbn [map_tokens]. rewrite bind_run.
  unfold eval_token, mbind, M_bind, get_world. cbn. rewrite Hx, Hy. reflexivity.
Qed.

Lemma token_failure_escapes_witness :
  rtokens (mkRenderer 0 (tokenize "{{f()}} tail")) = [] ++ TExpr "f()" :: [TText " tail"] /\
  js_eval throwing_world 5%positive "f()" = Exn (XValue VNull) /\
  exn_message throwing_world (XValue VNull) =
    Exn (type_error "Cannot read properties of null (reading 'message')") /\
  run_renderer js_eval (mkRenderer 0 (tokenize "{{f()}} tail")) 5%positive throwing_world =
    (Exn (type_error "Cannot read properties of null (reading 'message')"), throwing_world).
Proof.
  assert (H1 : rtokens (mkRenderer 0 (tokenize "{{f()}} tail")) = [] ++ TExpr "f()" :: [TText " tail"])
    by (vm_compute; reflexivity).
  assert (H2 : js_eval throwing_world 5%positive "f()" = Exn (XValue VNull))
    by (vm_compute; reflexivity).
  assert (H3 : exn_message throwing_world (XValue VNull) =
               Exn (type_error "Cannot read properties of null (reading 'message')")) by reflexivity.
  split; [exact H1|split; [exact H2|split; [exact H3|]]].
  apply (token_failure_escapes js_eval throwing_world _ 5%positive [] [TText " tail"] "f()"
           (XValue VNull) _ H1); [|exact H2|exact H3].
  intros t Ht. apply elem_of_nil in Ht. destruct Ht.
Defined.

(** C5: [render('{{f()}} tail', data)] with [f = () => { throw null }] throws
    a TypeError and logs nothing; [render('{{o}} tail', data)] with an [o]
    whose [toString] throws ['boom'] throws ['boom'], the conversion of
    [join('')] running outside the [try]. *)
Lemma token_failure_counterexample :
  run (template_render js_eval "{{f()}} tail" 5%positive) throwing_world =
    (Exn (type_error "Cannot read properties of null (reading 'message')"),
     snd (compile "{{f()}} tail" throwing_world)) /\
  console (snd (template_render js_eval "{{f()}} tail" 5%positive throwing_world)) = [] /\
  fst (template_render js_eval "{{o}} tail" 5%positive throwing_world) = Exn (XValue (VStr "boom")).
Proof. vm_compute. split; [reflexivity|split; reflexivity]. Qed.

(** *** What rendering computes *)

Lemma with_console_twice (c c0 : list string) (w : world) :
  with_console c (with_console c0 w) = with_console c w.
Proof. destruct w; reflexivity. Qed.

Lemma with_console_self (w : world) : with_console (console w) w = w.
Proof. destruct w; reflexivity. Qed.

Lemma to_string_console (c : list string) (w : world) (v : val) :
  to_string (with_console c w) v = to_string w v.
Proof. destruct w; reflexivity. Qed.

Lemma exn_message_console (c : list string) (w : world) (x : exn) :
  exn_message (with_console c w) x = exn_message w x.
Proof. destruct w; reflexivity. Qed.

Lemma js_eval_console (c : list string) (w : world) (ctx : loc) (e : string) :
  js_eval (with_console c w) ctx e = js_eval w ctx e.
Proof. destruct w; reflexivity. Qed.

Lemma join_all_console (c : list string) (w : world) (vs : list val) :
  join_all (with_console c w) vs = join_all w vs.
Proof.
  induction vs as [|v vs IH]; [reflexivity|]. cbn [join_all]. rewrite IH.
  destruct v; try reflexivity; rewrite to_string_console; reflexivity.
Qed.

(** reading and converting depend on the heap and the data pointer only *)
Lemma read_agree (w1 w2 : world) :
  heap w1 = heap w2 -> kdata w1 = kdata w2 -> forall l k, read w1 l k = read w2 l k.
Proof. intros H1 H2 l k. unfold read, inst_read, obj_of. rewrite H1, H2. reflexivity. Qed.

Lemma to_string_agree (w1 w2 : world) (v : val) :
  heap w1 = heap w2 -> kdata w1 = kdata w2 -> to_string w1 v = to_string w2 v.
Proof.
  intros H1 H2. destruct v; try reflexivity. unfold to_string.
  rewrite !(read_agree w1 w2 H1 H2). reflexivity.
Qed.

Lemma exn_message_agree (w1 w2 : world) (x : exn) :
  heap w1 = heap w2 -> kdata w1 = kdata w2 -> exn_message w1 x = exn_message w2 x.
Proof.
  intros H1 H2. destruct x as [| [] |]; try reflexivity. cbn [exn_message].
  rewrite (read_agree w1 w2 H1 H2). apply to_string_agree; assumption.
Qed.

Lemma join_all_agree (w1 w2 : world) (vs : list val) :
  heap w1 = heap w2 -> kdata w1 = kdata w2 -> join_all w1 vs = join_all w2 vs.
Proof.
  intros H1 H2. induction vs as [|v vs IH]; [reflexivity|]. cbn [join_all]. rewrite IH.
  destruct v; try reflexivity; rewrite (to_string_agree w1 w2 _ H1 H2); reflexivity.
Qed.

Lemma js_eval_agree (w1 w2 : world) (ctx : loc) (e : string) :
  heap w1 = heap w2 -> kdata w1 = kdata w2 -> js_eval w1 ctx e = js_eval w2 ctx e.
Proof.
  intros H1 H2. unfold js_eval, eval_name, resolve, has_property.
  rewrite !(read_agree w1 w2 H1 H2). unfold obj_of. rewrite H1. reflexivity.
Qed.

Section Rendering.

Variable ev : world -> loc -> string -> outcome val.
Variable w : world.
Variable ctx : loc.
Hypothesis Hev : forall w' ctx' e, heap w' = heap w -> kdata w' = kdata w -> ev w' ctx' e = ev w ctx' e.

Lemma join_all_cons (v : val) (vs : list val) :
  join_all w (v :: vs) =
  match join_piece w v with
  | Exn x => Exn x
  | Ok s => match join_all w vs with Ok r => Ok (s +:+ r) | Exn x => Exn x end
  end.
Proof. reflexivity. Qed.

Lemma eval_token_piece (w0 : world) (t : token) :
  heap w0 = heap w -> kdata w0 = kdata w ->
  (forall e x, t = TExpr e -> ev w ctx e = Exn x -> exists m, exn_message w x = Ok m) ->
  exists c v, eval_token ev ctx t w0 = (Ok v, with_console c w0) /\
              join_piece w v = spec_piece ev w ctx t.
Proof.
  intros H1 H2 Hm. destruct t as [s|e].
  - exists (console w0), (VStr s). rewrite with_console_self. split; reflexivity.
  - unfold eval_token, mbind, M_bind, get_world. cbn -[exn_message log_console].
    rewrite (Hev w0 ctx e H1 H2). cbn [spec_piece].
    destruct (ev w ctx e) as [v|x] eqn:He.
    + exists (console w0), (if strict_eq v VUndef then VStr String.EmptyString else v).
      rewrite with_console_self. split; [reflexivity|]. destruct v; reflexivity.
    + destruct (Hm e x eq_refl He) as [m Hmx].
      rewrite (exn_message_agree w0 w x H1 H2), Hmx.
      exists (console w0 ++ ["Template error: " +:+ m]), (VStr String.EmptyString).
      split; reflexivity.
Qed.

Lemma map_tokens_pieces (ts : list token) (w0 : world) :
  heap w0 = heap w -> kdata w0 = kdata w ->
  (forall e x, TExpr e ∈ ts -> ev w ctx e = Exn x -> exists m, exn_message w x = Ok m) ->
  exists c vs, map_tokens ev ctx ts w0 = (Ok vs, with_console c w0) /\
               join_all w vs = spec_render ev w ctx ts.
Proof.
  revert w0. induction ts as [|t ts IH]; intros w0 H1 H2 Hm.
  - exists (console w0), []. rewrite with_console_self. split; reflexivity.
  - destruct (eval_token_piece w0 t H1 H2) as (c1 & v & Hv & Hp).
    { intros e x -> He. apply (Hm e x); [left|exact He]. }
    destruct (IH (with_console c1 w0)) as (c2 & vs & Hvs & Hj).
    { destruct w0; exact H1. }
    { destruct w0; exact H2. }
    { intros e x Hin He. apply (Hm e x); [right; exact Hin|exact He]. }
    exists c2, (v :: vs). cbn [map_tokens]. rewrite bind_run, Hv, bind_run, Hvs, with_console_twice.
    split; [reflexivity|]. rewrite join_all_cons, Hp, Hj. reflexivity.
Qed.

Lemma run_renderer_spec (r : renderer) (w0 : world) :
  heap w0 = heap w -> kdata w0 = kdata w ->
  (forall e x, TExpr e ∈ rtokens r -> ev w ctx e = Exn x -> exists m, exn_message w x = Ok m) ->
  fst (run_renderer ev r ctx w0) =
    match spec_render ev w ctx (rtokens r) with Ok s => Ok (VStr s) | Exn x => Exn x end.
Proof.
  intros H1 H2 Hm. destruct (map_tokens_pieces (rtokens r) w0 H1 H2 Hm) as (c & vs & Hvs & Hj).
  unfold run_renderer. rewrite bind_run, Hvs, bind_run. unfold get_world.
  rewrite (join_all_agree (with_console c w0) w vs) by (destruct w0; first [exact H1|exact H2]).
  rewrite Hj. destruct (spec_render ev w ctx (rtokens r)); reflexivity.
Qed.

End Rendering.

Lemma compile_run (ev : world -> loc -> string -> outcome val) (t : string) (w : world)
    (cache : gmap string renderer) :
  engine w = Some cache ->
  compile t w =
  match cache !! t with
  | Some r => (Ok (CRenderer r), w)
  | None =>
      match proto_member t with
      | Some v => (Ok (CInherited v), w)
      | None => (Ok (CRenderer (mkRenderer (next w) (tokenize t))),
                 with_next (S (next w)) (with_engine (Some (<[t := mkRenderer (next w) (tokenize t)]> cache)) w))
      end
  end.
Proof.
  intros He. unfold compile, get_world, mbind, M_bind, mret, M_ret, modify. cbn. rewrite He.
  destruct (cache !! t); [reflexivity|]. destruct (proto_member t); reflexivity.
Qed.


Lemma ident_start_not_digit (c : ascii) : is_ident_start c = true -> is_digit c = false.
Proof.
  unfold is_ident_start, is_digit. generalize (Ascii.nat_of_ascii c) as n. intros n.
  rewrite !orb_true_iff, !andb_true_iff, !Nat.leb_le, !Nat.eqb_eq.
  intros H. apply not_true_is_false. rewrite andb_true_iff, !Nat.leb_le. lia.
Qed.

Lemma identifier_not_decimal (s : list ascii) : is_identifier s = true -> is_decimal s = false.
Proof.
  destruct s as [|c s]; [discriminate|]. cbn. rewrite andb_true_iff. intros [Hc _].
  rewrite (ident_start_not_digit c Hc). destruct s; reflexivity.
Qed.

Lemma eqb_not_elem (x y : string) (l : list string) :
  x ∉ l -> y ∈ l -> String.eqb x y = false.
Proof. intros Hx Hy. apply String.eqb_neq. intros ->. exact (Hx Hy). Qed.




(** *** Computed entries *)

Lemma append_empty (s : string) : s +:+ String.EmptyString = s.
Proof. induction s as [|a s IH]; [reflexivity|]. exact (f_equal (String.String a) IH). Qed.

Lemma computed_world_fields (n : Z) :
  kdata (computed_world n) = Some 2%positive /\ kcomputed (computed_world n) = Some 3%positive /\
  options (computed_world n) = Some {| template := Some "{{double}}" |} /\
  own_prop (obj_of (computed_world n) 2%positive) "count" = Some (PAccessor (VNum n)).
Proof. vm_compute. repeat split. Qed.

Lemma computed_world_set (n m : Z) :
  kiwi_set js_eval "count" (VNum m) (computed_world n) =
  put (kiwi_callback js_eval) 2%positive "count" (VNum m) (computed_world n).
Proof.
  destruct (computed_world_fields n) as (Hd & _ & _ & Hp).
  assert (Hr : read (computed_world n) 2%positive "count" = VNum n) by (unfold read; rewrite Hp; reflexivity).
  unfold kiwi_set, need_data, get_world. rewrite !bind_run. rewrite Hd.
  unfold mret, M_ret. cbn beta iota. rewrite bind_run. rewrite Hr. reflexivity.
Qed.

Lemma computed_world_render (n : Z) :
  el (computed_world n) = Some (num_to_string (2 * n)) /\
  read (computed_world n) 3%positive "double" = VNum (2 * n).
Proof.
  split; [|vm_compute; reflexivity].
  transitivity (Some (num_to_string (2 * n) +:+ String.EmptyString));
    [vm_compute; reflexivity|rewrite append_empty; reflexivity].
Qed.

Lemma own_prop_not_key (o : jsobj) (k : string) : k ∉ own_keys o -> own_prop o k = None.
Proof.
  intros Hk. destruct (own_prop o k) as [p|] eqn:E; [|reflexivity].
  destruct Hk. exact (own_prop_elem_of_keys o k p E).
Qed.

Lemma with_heap_self (w : world) : with_heap (heap w) w = w.
Proof. destruct w; reflexivity. Qed.

Lemma alloc_run (o : jsobj) (w : world) :
  alloc o w = (Ok (fresh (dom (heap w) ∪ {[object_prototype]})),
               with_heap (<[fresh (dom (heap w) ∪ {[object_prototype]}) := o]> (heap w)) w).
Proof. reflexivity. Qed.

Lemma alloc_not_in (w : world) : heap w !! fresh (dom (heap w) ∪ {[object_prototype]}) = None.
Proof.
  apply not_elem_of_dom. intros Hin.
  apply (is_fresh (dom (heap w) ∪ {[object_prototype]})). apply elem_of_union_l. exact Hin.
Qed.

Lemma get_obj_run (l : loc) (w : world) : get_obj l w = (Ok (obj_of w l), w).
Proof. reflexivity. Qed.

Lemma obj_of_insert (w : world) (t : loc) (o : jsobj) :
  obj_of (with_heap (<[t := o]> (heap w)) w) t = o.
Proof. unfold obj_of. cbn [heap with_heap]. rewrite lookup_insert_eq. reflexivity. Qed.

Lemma obj_of_insert_ne (w : world) (t l : loc) (o : jsobj) :
  l ≠ t -> obj_of (with_heap (<[t := o]> (heap w)) w) l = obj_of w l.
Proof. intros Hl. unfold obj_of. cbn [heap with_heap]. rewrite lookup_insert_ne by congruence. reflexivity. Qed.

Lemma inst_read_frame (w : world) (t : loc) (o : jsobj) :
  kdata w ≠ Some t -> inst_read (with_heap (<[t := o]> (heap w)) w) = inst_read w.
Proof.
  intros Hd. unfold inst_read, obj_of. cbn [kdata heap with_heap].
  destruct (kdata w) as [d|] eqn:E; [|reflexivity].
  rewrite lookup_insert_ne by congruence. reflexivity.
Qed.

Lemma read_frame (w : world) (t l : loc) (o : jsobj) (k : string) :
  kdata w ≠ Some t -> l ≠ t -> read (with_heap (<[t := o]> (heap w)) w) l k = read w l k.
Proof.
  intros Hd Hl. unfold read. rewrite (inst_read_frame w t o Hd), (obj_of_insert_ne w t l o Hl).
  reflexivity.
Qed.

Lemma read_own_other (w : world) (t : loc) (o : jsobj) (k k' : string) :
  kdata w ≠ Some t -> own_prop o k' = own_prop (obj_of w t) k' ->
  read (with_heap (<[t := o]> (heap w)) w) t k' = read w t k'.
Proof.
  intros Hd Ho. unfold read. rewrite (inst_read_frame w t o Hd), obj_of_insert, Ho. reflexivity.
Qed.

Lemma read_absent (w : world) (l : loc) (k : string) :
  own_prop (obj_of w l) k = None -> read w l k = default VUndef (proto_member k).
Proof. intros H. unfold read. rewrite H. reflexivity. Qed.

Lemma read_data (w : world) (l : loc) (k : string) (v : val) :
  own_prop (obj_of w l) k = Some (PData v) -> read w l k = v.
Proof. intros H. unfold read. rewrite H. reflexivity. Qed.

Lemma proto_member_not_object (k : string) :
  k ≠ "__proto__" -> is_object (default VUndef (proto_member k)) = false.
Proof.
  intros Hk. unfold proto_member. rewrite (proj2 (String.eqb_neq _ _) Hk).
  destruct (existsb _ _); reflexivity.
Qed.

Lemma has_own_builtin (w : world) (l : loc) :
  "hasOwnProperty" ∉ own_keys (obj_of w l) ->
  strict_eq (read w l "hasOwnProperty") (VBuiltin "hasOwnProperty") = true.
Proof. intros H. rewrite (read_absent w l _ (own_prop_not_key _ _ H)). reflexivity. Qed.

(** [for (let key in source) target[key] = source[key]] over distinct keys
    that raise none of the unmodelled cases *)
Lemma extend_keys_run (t s : loc) (ks : list string) (w : world) :
  s ≠ t -> kdata w ≠ Some t -> heap w !! t ≠ None -> NoDup ks ->
  strict_eq (read w s "hasOwnProperty") (VBuiltin "hasOwnProperty") = true ->
  (forall k, k ∈ ks -> k ≠ "__proto__" /\
     (is_object (read w s k) = false \/ is_object (read w t k) = false)) ->
  exists o', extend_keys t s ks w = (Ok (), with_heap (<[t := o']> (heap w)) w) /\
    (forall k, k ∈ ks -> own_prop o' k = Some (PData (read w s k))) /\
    (forall k, k ∉ ks -> own_prop o' k = own_prop (obj_of w t) k).
Proof.
  revert w. induction ks as [|k ks IH]; intros w Hst Hd Ht Hnd Hh Hk.
  - exists (obj_of w t). split; [|split; [intros k Hin; apply elem_of_nil in Hin; destruct Hin|reflexivity]].
    unfold obj_of. destruct (heap w !! t) as [ot|] eqn:Eot; [|congruence]. cbn [default]. rewrite (insert_id _ _ _ Eot), with_heap_self. reflexivity.
  - apply NoDup_cons in Hnd as [Hnin Hnd].
    destruct (Hk k ltac:(left)) as [Hp Hobj].
    cbn [extend_keys]. rewrite bind_run. unfold get_world at 1. cbv beta iota.
    rewrite Hh. cbn [negb].
    assert (Eo : is_object (read w s k) && is_object (read w t k) = false)
      by (destruct Hobj as [E|E]; rewrite E; [reflexivity|apply andb_false_r]).
    rewrite Eo, (proj2 (String.eqb_neq _ _) Hp). rewrite bind_run. unfold define_prop, modify.
    cbv beta iota.
    set (w' := with_heap (<[t := set_own (obj_of w t) k (PData (read w s k))]> (heap w)) w).
    destruct (IH w') as (o'' & E'' & Hin'' & Hout''); [exact Hst|exact Hd| |exact Hnd| | |].
    + unfold w'. cbn [heap with_heap]. rewrite lookup_insert_eq. discriminate.
    + unfold w'. rewrite read_frame by assumption. exact Hh.
    + intros k' Hk'. destruct (Hk k' ltac:(right; exact Hk')) as [Hp' Hobj'].
      split; [exact Hp'|]. unfold w'. rewrite read_frame by assumption.
      rewrite read_own_other by (try assumption; apply own_prop_set_own_ne; intros ->; contradiction).
      exact Hobj'.
    + exists o''. split; [|split].
      * rewrite E''. unfold w'. rewrite with_heap_twice. change (heap (with_heap ?h ?w0)) with h.
        rewrite insert_insert_eq. reflexivity.
      * intros k' Hk'. apply elem_of_cons in Hk' as [->|Hk'].
        -- rewrite (Hout'' k Hnin). unfold w'. rewrite obj_of_insert. apply own_prop_set_own.
        -- rewrite (Hin'' k' Hk'). unfold w'. rewrite read_frame by assumption. reflexivity.
      * intros k' Hk'. assert (Hk'' : k' ∉ ks) by (intros Hin; apply Hk'; right; exact Hin).
        rewrite (Hout'' k' Hk''). unfold w'. rewrite obj_of_insert. apply own_prop_set_own_ne. intros ->. apply Hk'. left.
Qed.



(** the scenario of the specification for every [n] and [m]: with data
    [count = n] and the computed [double = () => this.count * 2], the
    template ["{{double}}"] renders [2n]; after [set('count', m)] the element
    shows [2m] and reading [computed.double] gives [2m]. *)
Lemma computed_scenario (n m : Z) :
  el (computed_world n) = Some (num_to_string (2 * n)) /\
  kcomputed (snd (kiwi_set js_eval "count" (VNum m) (computed_world n))) = Some 3%positive /\
  el (snd (kiwi_set js_eval "count" (VNum m) (computed_world n))) = Some (num_to_string (2 * m)) /\
  read (snd (kiwi_set js_eval "count" (VNum m) (computed_world n))) 3%positive "double" = VNum (2 * m).
Proof.
  destruct (computed_world_fields n) as (Hd & Hc & Ho & Hp).
  split; [exact (proj1 (computed_world_render n))|].
  rewrite computed_world_set.
  destruct (Z.eq_dec n m) as [<-|Hne].
  - rewrite (put_accessor_same _ _ _ _ _ (VNum n) Hp (Z.eqb_refl n)). cbn [snd].
    split; [exact Hc|exact (computed_world_render n)].
  - apply Z.eqb_neq in Hne.
    rewrite (put_tracked_run js_eval (computed_world n) 2%positive "count" (VNum n) (VNum m) _ Ho Hp Hne eq_refl).
    split; [vm_compute; reflexivity|split; [|vm_compute; reflexivity]].
    transitivity (Some (num_to_string (2 * m) +:+ String.EmptyString));
      [vm_compute; reflexivity|rewrite append_empty; reflexivity].
Qed.

(** C7: the scenario of the specification, [count = 3] then [set('count', 4)]. *)
Lemma computed_example :
  el (computed_world 3) = Some "6" /\
  el (snd (kiwi_set js_eval "count" (VNum 4) (computed_world 3))) = Some "8".
Proof. vm_compute. split; reflexivity. Qed.

(** ** Extra properties: EventEmitter *)

Lemma assoc_set_twice {A} (k : string) (x y : A) (l : list (string * A)) :
  assoc_set k x (assoc_set k y l) = assoc_set k x l.
Proof.
  induction l as [|[k' z] l IH]; cbn.
  - rewrite String.eqb_refl. reflexivity.
  - destruct (String.eqb k k') eqn:E; cbn; rewrite E; [reflexivity|]. rewrite IH. reflexivity.
Qed.

Lemma filter_filter_bool {B} (p q : B -> bool) (l : list B) :
  List.filter p (List.filter q l) = List.filter (fun x => q x && p x) l.
Proof.
  induction l as [|x l IH]; [reflexivity|]. cbn.
  destruct (q x); cbn; [destruct (p x); cbn; rewrite IH; reflexivity|exact IH].
Qed.

Lemma filter_ext_in_bool {B} (p q : B -> bool) (l : list B) :
  (forall x, In x l -> p x = q x) -> List.filter p l = List.filter q l.
Proof.
  induction l as [|x l IH]; intros H; [reflexivity|]. cbn.
  rewrite (H x (or_introl eq_refl)), IH; [reflexivity|]. intros y Hy. apply H. right. exact Hy.
Qed.

Lemma emitter_call_each {A} (ev : string) (args : list A) (q : list EventEmitter.listener) :
  forall (e : EventEmitter.emitter A) (cur : list EventEmitter.listener),
  assoc_get ev (EventEmitter._events e) = Some cur ->
  let '(r, e') := EventEmitter.call_each ev args q e in
  r = Ok () /\
  EventEmitter._events e' =
    assoc_set ev (List.filter (fun x => negb (EventEmitter.is_once x && bool_decide (x ∈ q))) cur)
      (EventEmitter._events e) /\
  EventEmitter.calls e' = EventEmitter.calls e ++ map (fun l => (EventEmitter.target l, args)) q /\
  EventEmitter._maxListeners e' = EventEmitter._maxListeners e /\
  EventEmitter.wrappers e' = EventEmitter.wrappers e /\
  EventEmitter.warnings e' = EventEmitter.warnings e.
Proof.
  induction q as [|l q IH]; intros e cur Hcur.
  - cbn. split; [reflexivity|]. split; [|rewrite app_nil_r; auto].
    rewrite (filter_ext_in_bool _ (fun _ => true)); [|intros x _; rewrite andb_false_r; reflexivity].
    rewrite filter_true. symmetry. apply assoc_set_get. exact Hcur.
  - destruct l as [f|w f]; cbn [EventEmitter.call_each EventEmitter.call_listener].
    + specialize (IH (EventEmitter.record_call f args e) cur Hcur).
      destruct (EventEmitter.call_each ev args q (EventEmitter.record_call f args e)) as [r e'].
      destruct IH as (-> & Hev & Hc & Hm & Hw & Hwa). cbn in *.
      split; [reflexivity|]. split; [|split; [rewrite Hc, <- app_assoc; reflexivity|auto]].
      rewrite Hev. f_equal. apply filter_ext_in_bool. intros x _.
      destruct x as [g|w g]; [reflexivity|]. cbn.
      f_equal. apply bool_decide_ext. rewrite elem_of_cons. intuition congruence.
    + unfold EventEmitter.off, EventEmitter.lookup_event. rewrite Hcur.
      set (cur' := List.filter (fun x => negb (bool_decide (x = EventEmitter.LOnce w f))) cur).
      set (e1 := EventEmitter.record_call f args
                   (EventEmitter.set_events (assoc_set ev cur' (EventEmitter._events e)) e)).
      assert (Hcur' : assoc_get ev (EventEmitter._events e1) = Some cur')
        by apply assoc_get_set_eq.
      specialize (IH e1 cur' Hcur').
      destruct (EventEmitter.call_each ev args q e1) as [r e'].
      destruct IH as (-> & Hev & Hc & Hm & Hw & Hwa). cbn in *.
      split; [reflexivity|]. split; [|split; [rewrite Hc, <- app_assoc; reflexivity|auto]].
      rewrite Hev, assoc_set_twice. f_equal. unfold cur'. rewrite filter_filter_bool.
      apply filter_ext_in_bool. intros x _.
      destruct (decide (x = EventEmitter.LOnce w f)) as [->|Hne].
      * rewrite bool_decide_eq_true_2 by reflexivity. cbn.
        rewrite bool_decide_eq_true_2 by (left). reflexivity.
      * rewrite bool_decide_eq_false_2 by exact Hne. cbn. f_equal. f_equal.
        apply bool_decide_ext. rewrite elem_of_cons. intuition congruence.
Qed.

Lemma emitter_on_run {A} (e : EventEmitter.emitter A) (ev : string) (cb : EventEmitter.listener) :
  assoc_get ev (EventEmitter._events e) ≠ None \/ proto_member ev = None ->
  let old := default [] (assoc_get ev (EventEmitter._events e)) in
  EventEmitter.on ev cb e =
  (Ok (), EventEmitter.set_events (assoc_set ev (old ++ [cb]) (EventEmitter._events e))
            (EventEmitter.check_max ev (Some (Z.of_nat (length old))) e)).
Proof.
  intros H. unfold EventEmitter.on, EventEmitter.lookup_event.
  destruct (assoc_get ev (EventEmitter._events e)) as [ls|] eqn:E.
  { cbn. unfold EventEmitter.check_max. destruct (_ <=? _)%Z; reflexivity. }
  destruct H as [H|H]; [congruence|]. rewrite H. cbn.
  unfold EventEmitter.check_max. cbn.
  change (Z.of_nat 0) with 0%Z.
  destruct (EventEmitter._maxListeners e <=? 0)%Z;
    unfold EventEmitter.set_events, EventEmitter.warn; cbn; rewrite assoc_set_twice; reflexivity.
Qed.

Lemma emitter_emit_run {A} (e : EventEmitter.emitter A) (ev : string) (args : list A)
    (ls : list EventEmitter.listener) :
  assoc_get ev (EventEmitter._events e) = Some ls ->
  let '(r, e') := EventEmitter.emit ev args e in
  r = Ok true /\
  EventEmitter._events e' =
    assoc_set ev (List.filter (fun x => negb (EventEmitter.is_once x)) ls) (EventEmitter._events e) /\
  EventEmitter.calls e' = EventEmitter.calls e ++ map (fun l => (EventEmitter.target l, args)) ls /\
  EventEmitter._maxListeners e' = EventEmitter._maxListeners e /\
  EventEmitter.wrappers e' = EventEmitter.wrappers e /\
  EventEmitter.warnings e' = EventEmitter.warnings e.
Proof.
  intros H. unfold EventEmitter.emit, EventEmitter.lookup_event. rewrite H.
  pose proof (emitter_call_each ev args ls e ls H) as Hc.
  destruct (EventEmitter.call_each ev args ls e) as [r e'].
  destruct Hc as (-> & Hev & Hrest). split; [reflexivity|]. split; [|exact Hrest].
  rewrite Hev. f_equal. apply filter_ext_in_bool. intros x Hx.
  rewrite bool_decide_eq_true_2; [rewrite andb_true_r; reflexivity|]. apply list_elem_of_In. exact Hx.
Qed.

Lemma emitter_off_some_run {A} (e : EventEmitter.emitter A) (ev : string) (c : EventEmitter.listener)
    (ls : list EventEmitter.listener) :
  assoc_get ev (EventEmitter._events e) = Some ls ->
  EventEmitter.off ev (Some c) e =
  (Ok (), EventEmitter.set_events
            (assoc_set ev (List.filter (fun x => negb (bool_decide (x = c))) ls) (EventEmitter._events e)) e).
Proof. intros H. unfold EventEmitter.off, EventEmitter.lookup_event. rewrite H. reflexivity. Qed.

Lemma assoc_get_del_ne {B} (k k' : string) (l : list (string * B)) :
  k' ≠ k -> assoc_get k' (EventEmitter.assoc_del k l) = assoc_get k' l.
Proof.
  intros Hne. induction l as [|[k0 x] l IH]; [reflexivity|]. cbn.
  destruct (String.eqb k k0) eqn:E; cbn.
  - apply String.eqb_eq in E. subst k0. apply String.eqb_neq in Hne. rewrite Hne. reflexivity.
  - rewrite IH. reflexivity.
Qed.

Lemma assoc_get_del_eq {B} (k : string) (l : list (string * B)) :
  NoDup (map fst l) -> assoc_get k (EventEmitter.assoc_del k l) = None.
Proof.
  induction l as [|[k0 x] l IH]; intros Hnd; [reflexivity|]. cbn in *.
  apply NoDup_cons in Hnd as [Hn Hnd].
  destruct (String.eqb k k0) eqn:E; cbn.
  - apply String.eqb_eq in E. subst k0.
    destruct (assoc_get k l) eqn:E'; [|reflexivity]. exfalso. apply Hn.
    clear -E'. induction l as [|[k1 y] l IH]; cbn in *; [discriminate|].
    destruct (String.eqb k k1) eqn:E1.
    + apply String.eqb_eq in E1. subst. left.
    + right. apply IH. exact E'.
  - rewrite E. apply IH. exact Hnd.
Qed.

Lemma check_max_fields {A} (ev : string) (n : option Z) (e : EventEmitter.emitter A) :
  EventEmitter._events (EventEmitter.check_max ev n e) = EventEmitter._events e /\
  EventEmitter.calls (EventEmitter.check_max ev n e) = EventEmitter.calls e /\
  EventEmitter._maxListeners (EventEmitter.check_max ev n e) = EventEmitter._maxListeners e /\
  EventEmitter.wrappers (EventEmitter.check_max ev n e) = EventEmitter.wrappers e.
Proof.
  unfold EventEmitter.check_max. destruct n as [n|]; [|auto].
  destruct (_ <=? _)%Z; cbn; auto.
Qed.

Lemma warn_count_step (x : string) (m : Z) (k n : nat) :
  (if (m <=? Z.of_nat k)%Z then [x] else []) ++
    repeat x (n - Nat.min n (Z.to_nat (m - Z.of_nat (k + 1)))) =
  repeat x (S n - Nat.min (S n) (Z.to_nat (m - Z.of_nat k))).
Proof.
  destruct (m <=? Z.of_nat k)%Z eqn:E; [apply Z.leb_le in E|apply Z.leb_gt in E]; cbn [app].
  - replace (n - Nat.min n (Z.to_nat (m - Z.of_nat (k + 1))))%nat with n by lia.
    replace (S n - Nat.min (S n) (Z.to_nat (m - Z.of_nat k)))%nat with (S n) by lia. reflexivity.
  - f_equal. lia.
Qed.

Lemma on_each_present {A} (ev : string) (cbs : list EventEmitter.listener) :
  forall (e : EventEmitter.emitter A) (old : list EventEmitter.listener),
  assoc_get ev (EventEmitter._events e) = Some old ->
  let m := EventEmitter._maxListeners e in
  let '(r, e') := on_each ev cbs e in
  r = Ok () /\
  EventEmitter._events e' = assoc_set ev (old ++ cbs) (EventEmitter._events e) /\
  EventEmitter.warnings e' = EventEmitter.warnings e ++
    repeat (EventEmitter.max_warning ev m)
      (length cbs - Nat.min (length cbs) (Z.to_nat (m - Z.of_nat (length old)))) /\
  EventEmitter.calls e' = EventEmitter.calls e /\
  EventEmitter._maxListeners e' = m /\
  EventEmitter.wrappers e' = EventEmitter.wrappers e.
Proof.
  induction cbs as [|cb cbs IH]; intros e old Hold; cbn zeta.
  - cbn. rewrite !app_nil_r. split; [reflexivity|split; [|auto]].
    symmetry. apply assoc_set_get. exact Hold.
  - assert (H : assoc_get ev (EventEmitter._events e) ≠ None \/ proto_member ev = None)
      by (left; rewrite Hold; discriminate).
    cbn [on_each]. rewrite (emitter_on_run e ev cb H). rewrite Hold.
    cbn [default].
    set (e1 := EventEmitter.set_events _ _).
    assert (E1 : assoc_get ev (EventEmitter._events e1) = Some (old ++ [cb])) by apply assoc_get_set_eq.
    pose proof (check_max_fields ev (Some (Z.of_nat (length old))) e) as (_ & Hc & Hm & Hw).
    specialize (IH e1 _ E1). cbv zeta in IH.
    destruct (on_each ev cbs e1) as [r e'].
    destruct IH as (-> & Hev & Hwa & Hc' & Hm' & Hw').
    assert (Hm1 : EventEmitter._maxListeners e1 = EventEmitter._maxListeners e) by exact Hm.
    split; [reflexivity|split; [|split; [|split; [|split]]]].
    + rewrite Hev. unfold e1. cbn [EventEmitter._events EventEmitter.set_events].
      rewrite assoc_set_twice, <- app_assoc. reflexivity.
    + rewrite Hwa, Hm1. unfold e1. cbn [EventEmitter.warnings EventEmitter.set_events].
      unfold EventEmitter.check_max at 1. rewrite length_app. cbn [length].
      rewrite <- (warn_count_step _ _ (length old) (length cbs)).
      destruct (_ <=? _)%Z; cbn [EventEmitter.warnings EventEmitter.warn]; rewrite <- ?app_assoc; reflexivity.
    + rewrite Hc'. exact Hc.
    + rewrite Hm'. exact Hm1.
    + rewrite Hw'. exact Hw.
Qed.

(** A client registering the callbacks [cb :: cbs] on one event, one [on]
    after the other, for an event name not inherited from Object.prototype:
    the event's array ends with exactly these callbacks in order, after the
    ones already there; no listener is called; and the max-listeners
    warning is logged once for each registration made while the array
    already held at least [_maxListeners] callbacks, that is
    [n - min n (m - |old|)] times for [n] callbacks. *)
Theorem emitter_on_many {A} (e : EventEmitter.emitter A) (ev : string)
    (cb : EventEmitter.listener) (cbs : list EventEmitter.listener) :
  assoc_get ev (EventEmitter._events e) ≠ None \/ proto_member ev = None ->
  let old := default [] (assoc_get ev (EventEmitter._events e)) in
  let m := EventEmitter._maxListeners e in
  let '(r, e') := on_each ev (cb :: cbs) e in
  r = Ok () /\
  EventEmitter._events e' = assoc_set ev (old ++ cb :: cbs) (EventEmitter._events e) /\
  EventEmitter.warnings e' = EventEmitter.warnings e ++
    repeat (EventEmitter.max_warning ev m)
      (length (cb :: cbs) - Nat.min (length (cb :: cbs)) (Z.to_nat (m - Z.of_nat (length old)))) /\
  EventEmitter.calls e' = EventEmitter.calls e /\
  EventEmitter._maxListeners e' = m /\
  EventEmitter.wrappers e' = EventEmitter.wrappers e.
Proof.
  intros H old m. cbn [on_each]. rewrite (emitter_on_run e ev cb H). fold old.
  set (e1 := EventEmitter.set_events _ _).
  assert (E1 : assoc_get ev (EventEmitter._events e1) = Some (old ++ [cb])) by apply assoc_get_set_eq.
  pose proof (check_max_fields ev (Some (Z.of_nat (length old))) e) as (_ & Hc & Hm & Hw).
  pose proof (on_each_present ev cbs e1 _ E1) as IH. cbv zeta in IH.
  destruct (on_each ev cbs e1) as [r e'].
  destruct IH as (-> & Hev & Hwa & Hc' & Hm' & Hw').
  assert (Hm1 : EventEmitter._maxListeners e1 = m) by exact Hm.
  split; [reflexivity|split; [|split; [|split; [|split]]]].
  - rewrite Hev. unfold e1. cbn [EventEmitter._events EventEmitter.set_events].
    rewrite assoc_set_twice, <- app_assoc. reflexivity.
  - rewrite Hwa, Hm1. unfold e1. cbn [EventEmitter.warnings EventEmitter.set_events].
    unfold EventEmitter.check_max at 1. rewrite length_app. cbn [length].
    rewrite <- (warn_count_step _ _ (length old) (length cbs)). fold m.
    destruct (_ <=? _)%Z; cbn [EventEmitter.warnings EventEmitter.warn]; rewrite <- ?app_assoc; reflexivity.
  - rewrite Hc'. exact Hc.
  - rewrite Hm'. exact Hm1.
  - rewrite Hw'. exact Hw.
Qed.

Lemma emitter_on_many_witness :
  (assoc_get "tick" (EventEmitter._events tick_emitter) ≠ None \/ proto_member "tick" = None) /\
  let old := default [] (assoc_get "tick" (EventEmitter._events tick_emitter)) in
  let m := EventEmitter._maxListeners tick_emitter in
  let '(r, e') := on_each "tick" (EventEmitter.LFn 4 :: repeat (EventEmitter.LFn 5) 8) tick_emitter in
  r = Ok () /\
  EventEmitter._events e' = assoc_set "tick" (old ++ EventEmitter.LFn 4 :: repeat (EventEmitter.LFn 5) 8)
                              (EventEmitter._events tick_emitter) /\
  EventEmitter.warnings e' = EventEmitter.warnings tick_emitter ++
    repeat (EventEmitter.max_warning "tick" m)
      (length (EventEmitter.LFn 4 :: repeat (EventEmitter.LFn 5) 8) -
       Nat.min (length (EventEmitter.LFn 4 :: repeat (EventEmitter.LFn 5) 8)) (Z.to_nat (m - Z.of_nat (length old)))) /\
  EventEmitter.calls e' = EventEmitter.calls tick_emitter /\
  EventEmitter._maxListeners e' = m /\
  EventEmitter.wrappers e' = EventEmitter.wrappers tick_emitter.
Proof.
  assert (H : assoc_get "tick" (EventEmitter._events tick_emitter) ≠ None \/ proto_member "tick" = None)
    by (left; vm_compute; discriminate).
  split; [exact H|exact (emitter_on_many tick_emitter "tick" (EventEmitter.LFn 4) (repeat (EventEmitter.LFn 5) 8) H)].
Defined.

(** [emit(event, ...args)] on an event with an array calls every callback
    of the array once, in order, with [args], returns [true], and leaves in
    the array exactly the callbacks not registered with [once]. *)
Theorem emitter_emit_calls {A} (e : EventEmitter.emitter A) (ev : string) (args : list A)
    (ls : list EventEmitter.listener) :
  assoc_get ev (EventEmitter._events e) = Some ls ->
  let '(r, e') := EventEmitter.emit ev args e in
  r = Ok true /\
  EventEmitter._events e' =
    assoc_set ev (List.filter (fun x => negb (EventEmitter.is_once x)) ls) (EventEmitter._events e) /\
  EventEmitter.calls e' = EventEmitter.calls e ++ map (fun l => (EventEmitter.target l, args)) ls /\
  EventEmitter._maxListeners e' = EventEmitter._maxListeners e /\
  EventEmitter.wrappers e' = EventEmitter.wrappers e /\
  EventEmitter.warnings e' = EventEmitter.warnings e.
Proof. exact (emitter_emit_run e ev args ls). Qed.

Lemma emitter_emit_calls_witness :
  assoc_get "tick" (EventEmitter._events tick_emitter) =
    Some [EventEmitter.LFn 1; EventEmitter.LOnce 0 2; EventEmitter.LFn 1] /\
  let '(r, e') := EventEmitter.emit "tick" [VNum 7] tick_emitter in
  r = Ok true /\
  EventEmitter._events e' =
    assoc_set "tick" (List.filter (fun x => negb (EventEmitter.is_once x))
                        [EventEmitter.LFn 1; EventEmitter.LOnce 0 2; EventEmitter.LFn 1])
      (EventEmitter._events tick_emitter) /\
  EventEmitter.calls e' = EventEmitter.calls tick_emitter ++
    map (fun l => (EventEmitter.target l, [VNum 7]))
      [EventEmitter.LFn 1; EventEmitter.LOnce 0 2; EventEmitter.LFn 1] /\
  EventEmitter._maxListeners e' = EventEmitter._maxListeners tick_emitter /\
  EventEmitter.wrappers e' = EventEmitter.wrappers tick_emitter /\
  EventEmitter.warnings e' = EventEmitter.warnings tick_emitter.
Proof.
  assert (H : assoc_get "tick" (EventEmitter._events tick_emitter) =
              Some [EventEmitter.LFn 1; EventEmitter.LOnce 0 2; EventEmitter.LFn 1]) by reflexivity.
  split; [exact H|exact (emitter_emit_calls tick_emitter "tick" [VNum 7] _ H)].
Defined.

(** [off(event, callback)] removes every registration of that very closure
    and keeps the others in order, but keeps the array even when it
    becomes empty: a following [emit(event)] returns [true] and calls
    exactly the remaining callbacks. *)
Theorem emitter_off_keeps_event {A} (e : EventEmitter.emitter A) (ev : string)
    (c : EventEmitter.listener) (ls : list EventEmitter.listener) (args : list A) :
  assoc_get ev (EventEmitter._events e) = Some ls ->
  let rest := List.filter (fun x => negb (bool_decide (x = c))) ls in
  let '(r1, e1) := EventEmitter.off ev (Some c) e in
  let '(r2, e2) := EventEmitter.emit ev args e1 in
  r1 = Ok () /\ assoc_get ev (EventEmitter._events e1) = Some rest /\
  r2 = Ok true /\
  EventEmitter.calls e2 = EventEmitter.calls e ++ map (fun l => (EventEmitter.target l, args)) rest.
Proof.
  intros H rest. rewrite (emitter_off_some_run e ev c ls H).
  assert (H1 : assoc_get ev (EventEmitter._events
                 (EventEmitter.set_events (assoc_set ev rest (EventEmitter._events e)) e)) = Some rest)
    by apply assoc_get_set_eq.
  pose proof (emitter_emit_run _ ev args rest H1) as H2.
  destruct (EventEmitter.emit ev args _) as [r2 e2].
  destruct H2 as (-> & _ & Hc & _). split; [reflexivity|split; [exact H1|split; [reflexivity|exact Hc]]].
Qed.

Lemma emitter_off_keeps_event_witness :
  assoc_get "tick" (EventEmitter._events tick_emitter) =
    Some [EventEmitter.LFn 1; EventEmitter.LOnce 0 2; EventEmitter.LFn 1] /\
  let rest := List.filter (fun x => negb (bool_decide (x = EventEmitter.LFn 1)))
                [EventEmitter.LFn 1; EventEmitter.LOnce 0 2; EventEmitter.LFn 1] in
  let '(r1, e1) := EventEmitter.off "tick" (Some (EventEmitter.LFn 1)) tick_emitter in
  let '(r2, e2) := EventEmitter.emit "tick" [VNum 7] e1 in
  r1 = Ok () /\ assoc_get "tick" (EventEmitter._events e1) = Some rest /\
  r2 = Ok true /\
  EventEmitter.calls e2 = EventEmitter.calls tick_emitter ++
    map (fun l => (EventEmitter.target l, [VNum 7])) rest.
Proof.
  assert (H : assoc_get "tick" (EventEmitter._events tick_emitter) =
              Some [EventEmitter.LFn 1; EventEmitter.LOnce 0 2; EventEmitter.LFn 1]) by reflexivity.
  split; [exact H|exact (emitter_off_keeps_event tick_emitter "tick" (EventEmitter.LFn 1) _ [VNum 7] H)].
Defined.

Lemma emitter_off_none_run {A} (e : EventEmitter.emitter A) (ev : string) :
  EventEmitter.off ev None e =
  (Ok (), match assoc_get ev (EventEmitter._events e) with
          | Some _ => EventEmitter.set_events (EventEmitter.assoc_del ev (EventEmitter._events e)) e
          | None => e
          end).
Proof.
  unfold EventEmitter.off, EventEmitter.lookup_event.
  destruct (assoc_get ev _); [reflexivity|]. destruct (proto_member ev); reflexivity.
Qed.

(** [off(event)] without a callback deletes the event from the table (the
    table never holds a name twice): the other events keep their arrays,
    and for a name not inherited from Object.prototype a following [emit]
    returns [false] and calls nothing, and [listenerCount] is 0. *)
Theorem emitter_off_all {A} (e : EventEmitter.emitter A) (ev : string) (args : list A) :
  NoDup (map fst (EventEmitter._events e)) ->
  let '(r, e') := EventEmitter.off ev None e in
  r = Ok () /\
  assoc_get ev (EventEmitter._events e') = None /\
  (forall k, k ≠ ev -> assoc_get k (EventEmitter._events e') = assoc_get k (EventEmitter._events e)) /\
  (proto_member ev = None ->
   EventEmitter.emit ev args e' = (Ok false, e') /\ EventEmitter.listenerCount e' ev = VNum 0).
Proof.
  intros Hnd. rewrite emitter_off_none_run.
  destruct (assoc_get ev (EventEmitter._events e)) as [ls|] eqn:E.
  - assert (Hd : assoc_get ev (EventEmitter.assoc_del ev (EventEmitter._events e)) = None)
      by (apply assoc_get_del_eq; exact Hnd).
    split; [reflexivity|split; [exact Hd|split]].
    + intros k Hk. apply assoc_get_del_ne. exact Hk.
    + intros Hp. unfold EventEmitter.emit, EventEmitter.listenerCount, EventEmitter.lookup_event.
      cbn. rewrite Hd, Hp. split; reflexivity.
  - split; [reflexivity|split; [exact E|split; [reflexivity|]]].
    intros Hp. unfold EventEmitter.emit, EventEmitter.listenerCount, EventEmitter.lookup_event.
    rewrite E, Hp. split; reflexivity.
Qed.

Lemma emitter_off_all_witness :
  NoDup (map fst (EventEmitter._events tick_emitter)) /\
  let '(r, e') := EventEmitter.off "tick" None tick_emitter in
  r = Ok () /\
  assoc_get "tick" (EventEmitter._events e') = None /\
  (forall k, k ≠ "tick" -> assoc_get k (EventEmitter._events e') = assoc_get k (EventEmitter._events tick_emitter)) /\
  (proto_member "tick" = None ->
   EventEmitter.emit "tick" [VNum 7] e' = (Ok false, e') /\ EventEmitter.listenerCount e' "tick" = VNum 0).
Proof.
  assert (H : NoDup (map fst (EventEmitter._events tick_emitter))) by (apply (bool_decide_unpack _); vm_compute; reflexivity).
  split; [exact H|exact (emitter_off_all tick_emitter "tick" [VNum 7] H)].
Defined.

Lemma filter_idem_bool {B} (p : B -> bool) (l : list B) :
  List.filter p (List.filter p l) = List.filter p l.
Proof.
  rewrite filter_filter_bool. apply filter_ext_in_bool. intros x _. destruct (p x); reflexivity.
Qed.

(** A callback registered with [once] runs on the first [emit] of its
    event only: the first [emit] calls the listeners already there and then
    the callback, and removes the new wrapper together with the [once]
    wrappers that were already there; the second [emit] calls the earlier
    plain listeners alone, and the event's array is left with them. *)
Theorem emitter_once_fires_once {A} (e : EventEmitter.emitter A) (ev : string) (f : nat)
    (a1 a2 : list A) :
  assoc_get ev (EventEmitter._events e) ≠ None \/ proto_member ev = None ->
  let old := default [] (assoc_get ev (EventEmitter._events e)) in
  let plain := List.filter (fun x => negb (EventEmitter.is_once x)) old in
  let '(r1, e1) := EventEmitter.once ev f e in
  let '(r2, e2) := EventEmitter.emit ev a1 e1 in
  let '(r3, e3) := EventEmitter.emit ev a2 e2 in
  r1 = Ok () /\ r2 = Ok true /\ r3 = Ok true /\
  EventEmitter.calls e3 =
    EventEmitter.calls e ++ map (fun l => (EventEmitter.target l, a1)) old ++ [(f, a1)] ++
    map (fun l => (EventEmitter.target l, a2)) plain /\
  EventEmitter._events e3 = assoc_set ev plain (EventEmitter._events e).
Proof.
  intros H old plain. unfold EventEmitter.once.
  erewrite emitter_on_run by exact H. cbv zeta. cbn [EventEmitter._events]. fold old.
  set (w := EventEmitter.wrappers e).
  set (e1 := EventEmitter.set_events _ _).
  assert (E1 : assoc_get ev (EventEmitter._events e1) = Some (old ++ [EventEmitter.LOnce w f]))
    by apply assoc_get_set_eq.
  pose proof (emitter_emit_run e1 ev a1 _ E1) as H2.
  destruct (EventEmitter.emit ev a1 e1) as [r2 e2].
  destruct H2 as (-> & Hev2 & Hc2 & _).
  rewrite List.filter_app in Hev2. fold plain in Hev2. cbn in Hev2.
  rewrite app_nil_r in Hev2.
  assert (E2 : assoc_get ev (EventEmitter._events e2) = Some plain)
    by (rewrite Hev2; apply assoc_get_set_eq).
  pose proof (emitter_emit_run e2 ev a2 _ E2) as H3.
  destruct (EventEmitter.emit ev a2 e2) as [r3 e3].
  destruct H3 as (-> & Hev3 & Hc3 & _).
  split; [reflexivity|split; [reflexivity|split; [reflexivity|split]]].
  - rewrite Hc3, Hc2. unfold e1. cbn [EventEmitter.calls EventEmitter.set_events].
    rewrite (proj1 (proj2 (check_max_fields _ _ _))). cbn.
    rewrite map_app, <- !app_assoc. reflexivity.
  - rewrite Hev3. unfold plain at 1. rewrite filter_idem_bool. fold plain. rewrite Hev2. unfold e1.
    cbn. rewrite !assoc_set_twice. reflexivity.
Qed.

Lemma emitter_once_fires_once_witness :
  (assoc_get "tick" (EventEmitter._events tick_emitter) ≠ None \/ proto_member "tick" = None) /\
  let old := default [] (assoc_get "tick" (EventEmitter._events tick_emitter)) in
  let plain := List.filter (fun x => negb (EventEmitter.is_once x)) old in
  let '(r1, e1) := EventEmitter.once "tick" 5 tick_emitter in
  let '(r2, e2) := EventEmitter.emit "tick" [VNum 1] e1 in
  let '(r3, e3) := EventEmitter.emit "tick" [VNum 2] e2 in
  r1 = Ok () /\ r2 = Ok true /\ r3 = Ok true /\
  EventEmitter.calls e3 =
    EventEmitter.calls tick_emitter ++ map (fun l => (EventEmitter.target l, [VNum 1])) old ++
    [(5%nat, [VNum 1])] ++ map (fun l => (EventEmitter.target l, [VNum 2])) plain /\
  EventEmitter._events e3 = assoc_set "tick" plain (EventEmitter._events tick_emitter).
Proof.
  assert (H : assoc_get "tick" (EventEmitter._events tick_emitter) ≠ None \/ proto_member "tick" = None)
    by (left; vm_compute; discriminate).
  split; [exact H|exact (emitter_once_fires_once tick_emitter "tick" 5 [VNum 1] [VNum 2] H)].
Defined.

(** [off(event, fn)] does not remove a callback [fn] registered with
    [once]: the table holds the wrapper, not [fn], so the wrapper stays at
    the end of the event's array (the plain [fn] listeners are removed),
    and the next [emit] still calls [fn]. *)
Theorem emitter_off_fn_keeps_once {A} (e : EventEmitter.emitter A) (ev : string) (f : nat) (args : list A) :
  assoc_get ev (EventEmitter._events e) ≠ None \/ proto_member ev = None ->
  let old := default [] (assoc_get ev (EventEmitter._events e)) in
  let '(_, e1) := EventEmitter.once ev f e in
  let '(r2, e2) := EventEmitter.off ev (Some (EventEmitter.LFn f)) e1 in
  let '(r3, e3) := EventEmitter.emit ev args e2 in
  r2 = Ok () /\
  assoc_get ev (EventEmitter._events e2) =
    Some (List.filter (fun x => negb (bool_decide (x = EventEmitter.LFn f))) old ++
          [EventEmitter.LOnce (EventEmitter.wrappers e) f]) /\
  r3 = Ok true /\ last (EventEmitter.calls e3) = Some (f, args).
Proof.
  intros H old. unfold EventEmitter.once.
  erewrite emitter_on_run by exact H. cbv zeta. cbn [EventEmitter._events]. fold old.
  set (w := EventEmitter.wrappers e).
  set (e1 := EventEmitter.set_events _ _).
  assert (E1 : assoc_get ev (EventEmitter._events e1) = Some (old ++ [EventEmitter.LOnce w f]))
    by apply assoc_get_set_eq.
  rewrite (emitter_off_some_run e1 ev _ _ E1).
  set (e2 := EventEmitter.set_events _ _).
  assert (E2 : assoc_get ev (EventEmitter._events e2) =
                 Some (List.filter (fun x => negb (bool_decide (x = EventEmitter.LFn f))) old ++
                       [EventEmitter.LOnce w f])).
  { unfold e2. cbn [EventEmitter._events EventEmitter.set_events]. rewrite assoc_get_set_eq.
    rewrite List.filter_app. cbn. rewrite bool_decide_eq_false_2 by discriminate. reflexivity. }
  pose proof (emitter_emit_run e2 ev args _ E2) as H3.
  destruct (EventEmitter.emit ev args e2) as [r3 e3].
  destruct H3 as (-> & _ & Hc3 & _).
  split; [reflexivity|split; [exact E2|split; [reflexivity|]]].
  rewrite Hc3, map_app, app_assoc. cbn. apply last_snoc.
Qed.

Lemma emitter_off_fn_keeps_once_witness :
  (assoc_get "tick" (EventEmitter._events tick_emitter) ≠ None \/ proto_member "tick" = None) /\
  let old := default [] (assoc_get "tick" (EventEmitter._events tick_emitter)) in
  let '(_, e1) := EventEmitter.once "tick" 1 tick_emitter in
  let '(r2, e2) := EventEmitter.off "tick" (Some (EventEmitter.LFn 1)) e1 in
  let '(r3, e3) := EventEmitter.emit "tick" [VNum 3] e2 in
  r2 = Ok () /\
  assoc_get "tick" (EventEmitter._events e2) =
    Some (List.filter (fun x => negb (bool_decide (x = EventEmitter.LFn 1))) old ++
          [EventEmitter.LOnce (EventEmitter.wrappers tick_emitter) 1]) /\
  r3 = Ok true /\ last (EventEmitter.calls e3) = Some (1%nat, [VNum 3]).
Proof.
  assert (H : assoc_get "tick" (EventEmitter._events tick_emitter) ≠ None \/ proto_member "tick" = None)
    by (left; vm_compute; discriminate).
  split; [exact H|exact (emitter_off_fn_keeps_once tick_emitter "tick" 1 [VNum 3] H)].
Defined.

(** ** Extra properties: utils *)

Lemma ascii_forall (f : ascii -> bool) :
  forallb f (map Ascii.ascii_of_nat (seq 0 256)) = true -> forall c, f c = true.
Proof.
  intros H c. rewrite forallb_forall in H. apply H.
  rewrite <- (Ascii.ascii_nat_embedding c). apply in_map. apply in_seq.
  pose proof (Ascii.nat_ascii_bounded c). lia.
Qed.

Lemma ascii_forall_imp (p q : ascii -> bool) :
  forallb (fun c => negb (p c) || q c) (map Ascii.ascii_of_nat (seq 0 256)) = true ->
  forall c, p c = true -> q c = true.
Proof.
  intros H c Hp. pose proof (ascii_forall _ H c) as Hc. cbv beta in Hc. rewrite Hp in Hc. exact Hc.
Qed.

Ltac by_ascii_table := intros c; revert c;
  first [apply ascii_forall_imp | apply ascii_forall]; vm_compute; reflexivity.

Lemma lower_char_not_upper : forall c, Utils.is_upper (Utils.lower_char c) = false.
Proof.
  assert (H : forall c, negb (Utils.is_upper (Utils.lower_char c)) = true) by by_ascii_table.
  intros c. specialize (H c). destruct (Utils.is_upper _); [discriminate|reflexivity].
Qed.

Lemma lower_char_idem : forall c, Utils.lower_char (Utils.lower_char c) = Utils.lower_char c.
Proof.
  assert (H : forall c, Ascii.eqb (Utils.lower_char (Utils.lower_char c)) (Utils.lower_char c) = true)
    by by_ascii_table.
  intros c. apply Ascii.eqb_eq, H.
Qed.

Lemma plain_char_facts : forall c, Utils.is_lower c || is_digit c = true ->
  Ascii.eqb (Utils.lower_char c) c && negb (Ascii.eqb c "-"%char) && negb (Utils.is_upper c) = true.
Proof. by_ascii_table. Qed.

Lemma upper_char_facts : forall c, Utils.is_upper c = true ->
  Utils.is_lower (Utils.lower_char c) && Ascii.eqb (Utils.upper_ascii_letter (Utils.lower_char c)) c &&
  negb (Ascii.eqb c "-"%char) && negb (Utils.is_lower c) && negb (is_digit c) = true.
Proof. by_ascii_table. Qed.

Lemma lower_letter_facts : forall c, Utils.is_lower c = true ->
  Utils.is_upper (Utils.upper_ascii_letter c) && Ascii.eqb (Utils.lower_char (Utils.upper_ascii_letter c)) c = true.
Proof. by_ascii_table. Qed.

Lemma upper_char_stable : forall c,
  match Utils.upper_char c with
  | Some (x :: _) => bool_decide (Utils.upper_char x = Some [x])
  | Some [] => false
  | None => true
  end = true.
Proof. by_ascii_table. Qed.

Lemma kebab_cons (a : ascii) (x : list ascii) :
  match x with c :: _ => Utils.is_lower a && Utils.is_upper c | [] => false end = false ->
  Utils.kebab_replace (a :: x) = a :: Utils.kebab_replace x.
Proof. destruct x as [|c x]; [reflexivity|]. intros H. cbn [Utils.kebab_replace]. rewrite H. reflexivity. Qed.

Lemma camel_cons (a : ascii) (x : list ascii) :
  Ascii.eqb a "-"%char = false -> Utils.camel_replace (a :: x) = a :: Utils.camel_replace x.
Proof. destruct x as [|c x]; [reflexivity|]. intros H. cbn [Utils.camel_replace]. rewrite H. reflexivity. Qed.

Lemma kebab_replace_no_upper (l : list ascii) :
  Forall (fun c => Utils.is_upper c = false) l -> Utils.kebab_replace l = l.
Proof.
  induction 1 as [|a l Ha Hl IH]; [reflexivity|].
  rewrite kebab_cons; [rewrite IH; reflexivity|].
  destruct Hl as [|c l' Hc _]; [reflexivity|]. rewrite Hc. apply andb_false_r.
Qed.

(** [kebabCase] is idempotent: its result has no upper-case letter left
    for the replacement to split, and lower-casing is idempotent. *)
Theorem kebabCase_idempotent (v : val) :
  Utils.kebabCase (Utils.kebabCase v) = Utils.kebabCase v.
Proof.
  destruct v as [| | | | |s| | |]; try reflexivity.
  unfold Utils.kebabCase, str. rewrite String.list_ascii_of_string_of_list_ascii.
  rewrite kebab_replace_no_upper.
  - unfold Utils.to_lower. rewrite map_map. do 2 f_equal. apply map_ext. exact lower_char_idem.
  - unfold Utils.to_lower. apply Forall_map, Forall_forall. intros c _. apply lower_char_not_upper.
Qed.

Lemma upper_after_lower_cons (a b : ascii) (t : list ascii) :
  Utils.upper_after_lower (a :: b :: t) =
  (negb (Utils.is_upper b) || Utils.is_lower a) && Utils.upper_after_lower (b :: t).
Proof. reflexivity. Qed.

Lemma camel_kebab_list (n : nat) (l : list ascii) :
  (length l <= n)%nat -> Utils.camel_word l = true ->
  Utils.camel_replace (Utils.to_lower (Utils.kebab_replace l)) = l.
Proof.
  revert l. induction n as [|n IH]; intros l Hlen Hw.
  { destruct l; [reflexivity|cbn in Hlen; lia]. }
  destruct l as [|a r]; [reflexivity|].
  unfold Utils.camel_word in Hw. cbn [forallb] in Hw.
  apply andb_true_iff in Hw as [Hw Hu]. apply andb_true_iff in Hw as [Hw Hh].
  apply andb_true_iff in Hw as [Ha Hr]. cbv beta in Ha.
  assert (Hpa : Utils.is_lower a || is_digit a = true).
  { revert Ha Hh. destruct (Utils.is_lower a), (Utils.is_upper a), (is_digit a); cbn; congruence. }
  pose proof (plain_char_facts a Hpa) as Fa.
  apply andb_true_iff in Fa as [Fa Fu]. apply andb_true_iff in Fa as [Fl Fd].
  apply Ascii.eqb_eq in Fl. apply negb_true_iff in Fd.
  destruct r as [|b t].
  { cbn. rewrite Fl. reflexivity. }
  rewrite upper_after_lower_cons in Hu. apply andb_true_iff in Hu as [Hab Hu].
  cbn [forallb] in Hr. apply andb_true_iff in Hr as [Hb Ht]. cbv beta in Hb.
  destruct (Utils.is_lower a && Utils.is_upper b) eqn:Eab.
  - apply andb_true_iff in Eab as [Ela Eub].
    cbn [Utils.kebab_replace]. rewrite Ela, Eub. cbn [andb].
    unfold Utils.to_lower. cbn [map]. fold (Utils.to_lower (Utils.kebab_replace t)).
    rewrite Fl, camel_cons by exact Fd.
    pose proof (upper_char_facts b Eub) as Fb.
    apply andb_true_iff in Fb as [Fb _]. apply andb_true_iff in Fb as [Fb _].
    apply andb_true_iff in Fb as [Fb _]. apply andb_true_iff in Fb as [Flb Fub].
    apply Ascii.eqb_eq in Fub.
    change (Utils.lower_char "-"%char) with "-"%char. cbn [Utils.camel_replace].
    rewrite Flb. cbn [Ascii.eqb andb Bool.eqb]. rewrite Fub. do 2 f_equal.
    apply IH; [cbn in Hlen |- *; lia|].
    unfold Utils.camel_word. rewrite Ht. cbn [andb].
    destruct t as [|c t']; [reflexivity|].
    rewrite upper_after_lower_cons in Hu. apply andb_true_iff in Hu as [Hbc Hu].
    pose proof (upper_char_facts b Eub) as Fb'.
    apply andb_true_iff in Fb' as [Fb' _]. apply andb_true_iff in Fb' as [_ Fb'].
    apply negb_true_iff in Fb'.
    rewrite Fb', orb_false_r in Hbc. rewrite Hbc, Hu. reflexivity.
  - rewrite kebab_cons by exact Eab.
    unfold Utils.to_lower. cbn [map]. fold (Utils.to_lower (Utils.kebab_replace (b :: t))).
    rewrite Fl, camel_cons by exact Fd. f_equal.
    apply IH; [cbn in Hlen |- *; lia|].
    unfold Utils.camel_word. cbn [forallb]. rewrite Hb, Ht, Hu. cbn [andb].
    destruct (Utils.is_upper b) eqn:Eb; [|reflexivity].
    rewrite orb_false_l in Hab. rewrite Hab in Eab. discriminate.
Qed.

(** For an identifier in camel case (ASCII letters and digits, not
    starting with an upper-case letter, every upper-case letter right after
    a lower-case one), [camelCase] undoes [kebabCase]. *)
Theorem camelCase_kebabCase (s : string) :
  Utils.camel_word (String.list_ascii_of_string s) = true ->
  Utils.camelCase (Utils.kebabCase (VStr s)) = VStr s.
Proof.
  intros H. unfold Utils.kebabCase, Utils.camelCase, str.
  rewrite String.list_ascii_of_string_of_list_ascii.
  rewrite (camel_kebab_list (length (String.list_ascii_of_string s))) by (lia || exact H).
  rewrite String.string_of_list_ascii_of_string. reflexivity.
Qed.

Lemma camelCase_kebabCase_witness :
  Utils.camel_word (String.list_ascii_of_string "fontSize2xLarge") = true /\
  Utils.camelCase (Utils.kebabCase (VStr "fontSize2xLarge")) = VStr "fontSize2xLarge".
Proof.
  assert (H : Utils.camel_word (String.list_ascii_of_string "fontSize2xLarge") = true)
    by (vm_compute; reflexivity).
  split; [exact H|exact (camelCase_kebabCase "fontSize2xLarge" H)].
Defined.

Lemma kebab_camel_list (n : nat) (l : list ascii) :
  (length l <= n)%nat -> Utils.kebab_word l = true ->
  Utils.to_lower (Utils.kebab_replace (Utils.camel_replace l)) = l.
Proof.
  revert l. induction n as [|n IH]; intros l Hlen Hw.
  { destruct l; [reflexivity|cbn in Hlen; lia]. }
  destruct l as [|a r]; [reflexivity|].
  cbn [Utils.kebab_word] in Hw. apply andb_true_iff in Hw as [Ha Hr].
  pose proof (plain_char_facts a Ha) as Fa.
  apply andb_true_iff in Fa as [Fa Fu]. apply andb_true_iff in Fa as [Fl Fd].
  apply Ascii.eqb_eq in Fl. apply negb_true_iff in Fd. apply negb_true_iff in Fu.
  assert (Hgen : Utils.kebab_word r = true ->
                 Utils.to_lower (Utils.kebab_replace (Utils.camel_replace (a :: r))) = a :: r).
  { intros Hr'. rewrite camel_cons by exact Fd.
    destruct r as [|d r'].
    { cbn. rewrite Fl. reflexivity. }
    pose proof Hr' as Hd. cbn [Utils.kebab_word] in Hd. apply andb_true_iff in Hd as [Hd _].
    pose proof (plain_char_facts d Hd) as Fdd.
    apply andb_true_iff in Fdd as [Fdd Fdu]. apply andb_true_iff in Fdd as [_ Fdd].
    apply negb_true_iff in Fdd. apply negb_true_iff in Fdu.
    rewrite (camel_cons d) by exact Fdd. rewrite kebab_cons by (rewrite Fdu; apply andb_false_r).
    rewrite <- (camel_cons d) by exact Fdd.
    unfold Utils.to_lower. cbn [map]. rewrite Fl. f_equal.
    apply IH; [cbn in Hlen |- *; lia|exact Hr']. }
  destruct r as [|d [|b t]]; try (apply Hgen; exact Hr).
  destruct (Ascii.eqb d "-"%char) eqn:Ed; [|apply Hgen; exact Hr].
  apply Ascii.eqb_eq in Ed. subst d.
  apply andb_true_iff in Hr as [Hab Ht]. apply andb_true_iff in Hab as [Hla Hlb].
  rewrite camel_cons by exact Fd. cbn [Utils.camel_replace]. rewrite Hlb. cbn [Ascii.eqb andb Bool.eqb].
  pose proof (lower_letter_facts b Hlb) as Fb.
  apply andb_true_iff in Fb as [Fub Flb]. apply Ascii.eqb_eq in Flb.
  cbn [Utils.kebab_replace]. rewrite Hla, Fub. cbn [andb].
  unfold Utils.to_lower. cbn [map]. fold (Utils.to_lower (Utils.kebab_replace (Utils.camel_replace t))).
  rewrite Fl, Flb. change (Utils.lower_char "-"%char) with "-"%char. do 3 f_equal.
  apply IH; [cbn in Hlen |- *; lia|exact Ht].
Qed.

(** For a word in kebab case (lower-case letters, digits and dashes, every
    dash between two lower-case letters, the letter after a dash not
    followed by another dash), [kebabCase] undoes [camelCase]. *)
Theorem kebabCase_camelCase (s : string) :
  Utils.kebab_word (String.list_ascii_of_string s) = true ->
  Utils.kebabCase (Utils.camelCase (VStr s)) = VStr s.
Proof.
  intros H. unfold Utils.kebabCase, Utils.camelCase, str.
  rewrite String.list_ascii_of_string_of_list_ascii.
  rewrite (kebab_camel_list (length (String.list_ascii_of_string s))) by (lia || exact H).
  rewrite String.string_of_list_ascii_of_string. reflexivity.
Qed.

Lemma kebabCase_camelCase_witness :
  Utils.kebab_word (String.list_ascii_of_string "data-source-v2") = true /\
  Utils.kebabCase (Utils.camelCase (VStr "data-source-v2")) = VStr "data-source-v2".
Proof.
  assert (H : Utils.kebab_word (String.list_ascii_of_string "data-source-v2") = true)
    by (vm_compute; reflexivity).
  split; [exact H|exact (kebabCase_camelCase "data-source-v2" H)].
Defined.

Lemma lead_count_split (p : ascii -> bool) (l : list ascii) :
  Forall (fun c => p c = true) (take (lead_count p l) l) /\
  (forall c, head (drop (lead_count p l) l) = Some c -> p c = false).
Proof.
  induction l as [|a l IH]; cbn.
  - split; [constructor|discriminate].
  - destruct (p a) eqn:E; cbn.
    + destruct IH as [IH1 IH2]. split; [constructor; assumption|exact IH2].
    + split; [constructor|]. intros c Hc. injection Hc as <-. exact E.
Qed.

Lemma lead_count_zero (p : ascii -> bool) (l : list ascii) :
  (forall c, head l = Some c -> p c = false) -> lead_count p l = 0%nat.
Proof. destruct l as [|a l]; [reflexivity|]. intros H. cbn. rewrite (H a eq_refl). reflexivity. Qed.

Lemma last_rev_head {B} (l : list B) : last (rev l) = head l.
Proof. destruct l as [|x l]; [reflexivity|]. cbn. apply last_snoc. Qed.

Lemma head_rev_last {B} (l : list B) : head (rev l) = last l.
Proof. rewrite <- (rev_involutive l) at 2. rewrite last_rev_head. reflexivity. Qed.

Lemma trim_ascii_split (l : list ascii) :
  exists pre suf, l = pre ++ trim_ascii l ++ suf /\
    Forall (fun c => is_ws c = true) pre /\ Forall (fun c => is_ws c = true) suf /\
    (forall c, head (trim_ascii l) = Some c -> is_ws c = false) /\
    (forall c, last (trim_ascii l) = Some c -> is_ws c = false).
Proof.
  unfold trim_ascii.
  set (k1 := lead_count is_ws l). set (m := drop k1 l).
  set (k2 := lead_count is_ws (rev m)).
  destruct (lead_count_split is_ws l) as [Hp Hm]. fold k1 in Hp, Hm. fold m in Hm.
  destruct (lead_count_split is_ws (rev m)) as [Hs Ht]. fold k2 in Hs, Ht.
  assert (Em : m = rev (drop k2 (rev m)) ++ rev (take k2 (rev m))).
  { rewrite <- rev_app_distr, take_drop, rev_involutive. reflexivity. }
  exists (take k1 l), (rev (take k2 (rev m))). split; [|split; [exact Hp|split; [|split]]].
  - rewrite <- Em. unfold m. symmetry. apply take_drop.
  - apply Forall_rev. exact Hs.
  - intros c Hc. apply Hm. rewrite Em.
    destruct (rev (drop k2 (rev m))) as [|x t]; [discriminate|exact Hc].
  - intros c Hc. apply Ht. rewrite last_rev_head in Hc. exact Hc.
Qed.

Lemma trim_ascii_stable (t : list ascii) :
  (forall c, head t = Some c -> is_ws c = false) ->
  (forall c, last t = Some c -> is_ws c = false) -> trim_ascii t = t.
Proof.
  intros Hh Hl. unfold trim_ascii. rewrite (lead_count_zero _ _ Hh), drop_0.
  rewrite (lead_count_zero is_ws (rev t)); [apply rev_involutive|].
  intros c Hc. rewrite head_rev_last in Hc. exact (Hl c Hc).
Qed.

(** [trim] cuts a string into leading white space, the result and
    trailing white space, where the result neither starts nor ends with
    white space (tab, line feed, vertical tab, form feed, carriage return,
    space, no-break space); so [trim] is idempotent. *)
Theorem trim_strips_whitespace (s : string) :
  exists pre t suf,
    String.list_ascii_of_string s = pre ++ t ++ suf /\
    Forall (fun c => is_ws c = true) pre /\ Forall (fun c => is_ws c = true) suf /\
    (forall c, head t = Some c -> is_ws c = false) /\
    (forall c, last t = Some c -> is_ws c = false) /\
    Utils.trim (VStr s) = VStr (str t) /\
    Utils.trim (Utils.trim (VStr s)) = Utils.trim (VStr s).
Proof.
  destruct (trim_ascii_split (String.list_ascii_of_string s)) as (pre & suf & E & Hp & Hs & Hh & Hl).
  exists pre, (trim_ascii (String.list_ascii_of_string s)), suf.
  do 5 (split; [assumption|]). split; [reflexivity|].
  unfold Utils.trim, str. rewrite String.list_ascii_of_string_of_list_ascii.
  rewrite trim_ascii_stable by assumption. reflexivity.
Qed.

(** [capitalize] is idempotent: the upper case of a first character is its
    own upper case ("ß" becomes "SS", whose first letter stays "S"). *)
Theorem capitalize_idempotent (v r : val) :
  Utils.capitalize v = Some r -> Utils.capitalize r = Some r.
Proof.
  assert (Hempty : Utils.capitalize (VStr String.EmptyString) = Some (VStr String.EmptyString))
    by reflexivity.
  destruct v as [| | | | |s| | |]; cbn; try (intros H; injection H as <-; exact Hempty).
  destruct (String.list_ascii_of_string s) as [|c t]; [intros H; injection H as <-; exact Hempty|].
  pose proof (upper_char_stable c) as Hs.
  destruct (Utils.upper_char c) as [[|x u]|]; [discriminate|intros H; injection H as <-|discriminate].
  apply bool_decide_eq_true_1 in Hs.
  unfold str. cbn. rewrite String.list_ascii_of_string_of_list_ascii. cbn. rewrite Hs. reflexivity.
Qed.

Lemma capitalize_idempotent_witness :
  Utils.capitalize (VStr "hello world") = Some (VStr "Hello world") /\
  Utils.capitalize (VStr "Hello world") = Some (VStr "Hello world").
Proof.
  assert (H : Utils.capitalize (VStr "hello world") = Some (VStr "Hello world")) by (vm_compute; reflexivity).
  split; [exact H|exact (capitalize_idempotent _ _ H)].
Defined.

(** ** Extra properties: Template *)

Lemma map_tokens_console (ev : world -> loc -> string -> outcome val) (ctx : loc) (ts : list token) :
  forall w, exists c, snd (map_tokens ev ctx ts w) = with_console c w.
Proof.
  induction ts as [|t ts IH]; intros w.
  { exists (console w). symmetry. apply with_console_self. }
  cbn [map_tokens]. rewrite bind_run.
  assert (Ht : exists c, match eval_token ev ctx t w with
                         | (Ok v, w') => Some (v, w') | (Exn _, w') => None end = None /\
                         snd (eval_token ev ctx t w) = with_console c w \/
                         exists v, eval_token ev ctx t w = (Ok v, with_console c w)).
  { destruct t as [s|e]; cbn.
    - exists (console w). right. exists (VStr s). rewrite with_console_self. reflexivity.
    - unfold get_world, mbind, M_bind, mret, M_ret. cbn.
      destruct (ev w ctx e) as [v|x].
      + exists (console w). right. eexists. rewrite with_console_self. reflexivity.
      + destruct (exn_message w x) as [m|y].
        * exists (console w ++ ["Template error: " +:+ m]). right. eexists. reflexivity.
        * exists (console w). left. cbn. rewrite with_console_self. split; reflexivity. }
  destruct Ht as (c & [[Hn Hs]|[v Hv]]).
  - destruct (eval_token ev ctx t w) as [[v|x] w']; [discriminate|]. exists c. exact Hs.
  - rewrite Hv, bind_run. destruct (IH (with_console c w)) as [c' Hc'].
    destruct (map_tokens ev ctx ts (with_console c w)) as [[vs|x] w'];
      cbn in Hc' |- *; exists c'; rewrite Hc', with_console_twice; reflexivity.
Qed.

Lemma call_cached_console (ev : world -> loc -> string -> outcome val) (c : cached) (ctx : loc) (w : world) :
  exists c', snd (call_cached ev c ctx w) = with_console c' w.
Proof.
  destruct c as [r|v].
  - cbn [call_cached]. unfold run_renderer. rewrite bind_run.
    destruct (map_tokens_console ev ctx (rtokens r) w) as [c1 H1].
    destruct (map_tokens ev ctx (rtokens r) w) as [[vs|x] w1]; cbn in H1 |- *; subst w1;
      [|exists c1; reflexivity].
    unfold get_world, mbind, M_bind. cbn.
    destruct (join_all _ vs); exists c1; reflexivity.
  - exists (console w). rewrite with_console_self.
    destruct v; cbn; try reflexivity.
    destruct (String.eqb _ "toString"); [reflexivity|]. destruct (String.eqb _ "constructor"); [reflexivity|].
    destruct (String.eqb _ "toLocaleString"); [reflexivity|]. destruct (_ || _); [|reflexivity].
    unfold mbind, M_bind, get_world, throw. cbn.
    match goal with |- context [match ?m with Ok _ => _ | Exn _ => _ end] => destruct m end; reflexivity.
Qed.

(** The template cache only grows, and only with correct entries: when
    every cached closure holds the tokens of its own template string and
    no key is inherited from Object.prototype, [render] (and the [compile]
    inside it) keeps it so, whatever the template and the data, and never
    replaces or drops an entry. *)
Theorem template_cache_ok (ev : world -> loc -> string -> outcome val) (t : string) (ctx : loc)
    (w : world) (cache : gmap string renderer) :
  engine w = Some cache -> cache_ok cache ->
  exists cache', engine (snd (template_render ev t ctx w)) = Some cache' /\
                 cache_ok cache' /\ cache ⊆ cache'.
Proof.
  intros He Hok. unfold template_render. rewrite bind_run, (compile_run ev t w cache He).
  destruct (cache !! t) as [r|] eqn:Hc.
  - destruct (call_cached_console ev (CRenderer r) ctx w) as [c Hcc].
    exists cache. rewrite Hcc. cbn. split; [exact He|split; [exact Hok|reflexivity]].
  - destruct (proto_member t) as [v|] eqn:Hp.
    + destruct (call_cached_console ev (CInherited v) ctx w) as [c Hcc].
      exists cache. rewrite Hcc. cbn. split; [exact He|split; [exact Hok|reflexivity]].
    + set (r := mkRenderer (next w) (tokenize t)).
      set (w1 := with_next _ _).
      destruct (call_cached_console ev (CRenderer r) ctx w1) as [c Hcc].
      exists (<[t := r]> cache). rewrite Hcc. cbn. split; [reflexivity|split].
      * intros t' r' Hl. destruct (decide (t' = t)) as [->|Hne].
        -- rewrite lookup_insert_eq in Hl. injection Hl as <-. split; [reflexivity|exact Hp].
        -- rewrite lookup_insert_ne in Hl by congruence. exact (Hok t' r' Hl).
      * apply insert_subseteq. exact Hc.
Qed.

Lemma template_cache_ok_witness :
  engine plain_world = Some ∅ /\ cache_ok ∅ /\
  exists cache', engine (snd (template_render js_eval "[{{missing}}]" 5%positive plain_world)) = Some cache' /\
                 cache_ok cache' /\ ∅ ⊆ cache'.
Proof.
  assert (H1 : engine plain_world = Some ∅) by reflexivity.
  assert (H2 : cache_ok ∅) by (intros t r Hl; rewrite lookup_empty in Hl; discriminate).
  split; [exact H1|split; [exact H2|exact (template_cache_ok js_eval "[{{missing}}]" 5%positive plain_world ∅ H1 H2)]].
Defined.

Lemma scan_plain (fuel : nat) (pending s : list ascii) :
  (length s < fuel)%nat -> occurs delim_open s = false ->
  scan fuel delim_open delim_close pending s =
  match rev pending ++ s with [] => [] | l => [TText (str l)] end.
Proof.
  revert fuel pending. induction s as [|c s IH]; intros fuel pending Hf Ho.
  - destruct fuel as [|f]; [cbn in Hf; lia|]. cbn [scan]. rewrite app_nil_r.
    destruct pending as [|x p]; [reflexivity|].
    destruct (rev (x :: p)) as [|y q] eqn:E; [apply (f_equal (@length ascii)) in E; cbn in E; rewrite length_app in E; cbn in E; lia|reflexivity].
  - destruct fuel as [|f]; [cbn in Hf; lia|].
    cbn [occurs] in Ho. destruct (strip_prefix delim_open (c :: s)) eqn:Es; [discriminate|].
    cbn [scan]. unfold match_at. rewrite Es. cbn [mbind option_bind].
    rewrite (IH f (c :: pending)); [|cbn in Hf; lia|exact Ho].
    cbn [rev]. rewrite <- app_assoc. reflexivity.
Qed.

(** A template in which "{{" does not occur, and whose string is not the
    name of a member of Object.prototype, renders to itself, whatever the
    data, without a log line, when the cache holds correct entries. *)
Theorem template_plain_text (ev : world -> loc -> string -> outcome val) (t : string) (ctx : loc)
    (w : world) (cache : gmap string renderer) :
  engine w = Some cache -> cache_ok cache ->
  occurs delim_open (String.list_ascii_of_string t) = false -> proto_member t = None ->
  fst (template_render ev t ctx w) = Ok (VStr t) /\
  console (snd (template_render ev t ctx w)) = console w.
Proof.
  intros He Hok Ho Hp.
  assert (Htok : tokenize t = match String.list_ascii_of_string t with [] => [] | l => [TText (str l)] end).
  { unfold tokenize. rewrite scan_plain by (lia || exact Ho). reflexivity. }
  assert (Hrun : forall r w', rtokens r = tokenize t ->
            run_renderer ev r ctx w' = (Ok (VStr t), w')).
  { intros r w' Hr. unfold run_renderer. rewrite Hr, Htok.
    destruct (String.list_ascii_of_string t) as [|c l] eqn:El.
    - cbn. f_equal. f_equal. rewrite <- (String.string_of_list_ascii_of_string t), El. reflexivity.
    - unfold str. rewrite <- El, String.string_of_list_ascii_of_string.
      unfold mbind, M_bind, mret, M_ret, get_world. simpl.
      rewrite append_empty. reflexivity. }
  unfold template_render. rewrite bind_run, (compile_run ev t w cache He).
  destruct (cache !! t) as [r|] eqn:Hc.
  - cbn [call_cached]. rewrite Hrun by exact (proj1 (Hok t r Hc)). split; reflexivity.
  - rewrite Hp. cbn [call_cached]. rewrite Hrun by reflexivity. split; reflexivity.
Qed.

Lemma template_plain_text_witness :
  engine plain_world = Some ∅ /\ cache_ok ∅ /\
  occurs delim_open (String.list_ascii_of_string "Hello, { world }!") = false /\
  proto_member "Hello, { world }!" = None /\
  fst (template_render js_eval "Hello, { world }!" 5%positive plain_world) = Ok (VStr "Hello, { world }!") /\
  console (snd (template_render js_eval "Hello, { world }!" 5%positive plain_world)) = console plain_world.
Proof.
  assert (H1 : engine plain_world = Some ∅) by reflexivity.
  assert (H2 : cache_ok ∅) by (intros t r Hl; rewrite lookup_empty in Hl; discriminate).
  assert (H3 : occurs delim_open (String.list_ascii_of_string "Hello, { world }!") = false)
    by (vm_compute; reflexivity).
  assert (H4 : proto_member "Hello, { world }!" = None) by (vm_compute; reflexivity).
  do 4 (split; [assumption|]).
  exact (template_plain_text js_eval "Hello, { world }!" 5%positive plain_world ∅ H1 H2 H3 H4).
Defined.

(** A template string that names a member of Object.prototype is never
    compiled: [this.cache[template]] finds the inherited member and [render]
    calls it as the render function, with [this] undefined and the data as
    argument, leaving the state as it was.  "toString" renders
    "[object Undefined]", "constructor" returns the data object itself,
    "__proto__" throws "renderFn is not a function", "toLocaleString"
    throws the TypeError of that method called on undefined,
    "hasOwnProperty" and "propertyIsEnumerable" first convert the data to
    a property key (an exception of that conversion escapes) and then throw
    the TypeError of converting undefined to an object, which the other
    methods throw at once. *)
Theorem template_inherited_names (ev : world -> loc -> string -> outcome val) (t : string) (ctx : loc)
    (w : world) (cache : gmap string renderer) :
  engine w = Some cache -> cache_ok cache -> proto_member t <> None ->
  template_render ev t ctx w =
  (if String.eqb t "toString" then Ok (VStr "[object Undefined]")
   else if String.eqb t "constructor" then Ok (VRef ctx)
   else if String.eqb t "__proto__" then Exn (type_error "renderFn is not a function")
   else if String.eqb t "toLocaleString" then
     Exn (type_error "Object.prototype.toLocaleString called on null or undefined")
   else if String.eqb t "hasOwnProperty" || String.eqb t "propertyIsEnumerable" then
     match to_string w (VRef ctx) with
     | Ok _ => Exn (type_error "Cannot convert undefined or null to object")
     | Exn x => Exn x
     end
   else Exn (type_error "Cannot convert undefined or null to object"), w).
Proof.
  intros He Hok Hp.
  assert (Hc : cache !! t = None).
  { destruct (cache !! t) as [r|] eqn:Hc; [|reflexivity]. exfalso. exact (Hp (proj2 (Hok t r Hc))). }
  unfold template_render. rewrite bind_run, (compile_run ev t w cache He), Hc.
  unfold proto_member in Hp |- *.
  destruct (String.eqb t "__proto__") eqn:Ep.
  { apply String.eqb_eq in Ep. subst t. reflexivity. }
  destruct (existsb (String.eqb t) object_prototype_methods); [|contradiction].
  cbn [call_cached].
  destruct (String.eqb t "toString"); [reflexivity|].
  destruct (String.eqb t "constructor"); [reflexivity|].
  destruct (String.eqb t "toLocaleString"); [reflexivity|].
  destruct (String.eqb t "hasOwnProperty" || String.eqb t "propertyIsEnumerable"); [|reflexivity].
  unfold mbind, M_bind, get_world, throw. cbv beta iota.
  destruct (to_string w (VRef ctx)); reflexivity.
Qed.

Lemma template_inherited_names_witness :
  engine plain_world = Some ∅ /\ cache_ok ∅ /\ proto_member "hasOwnProperty" <> None /\
  template_render js_eval "hasOwnProperty" 5%positive plain_world =
  (if String.eqb "hasOwnProperty" "toString" then Ok (VStr "[object Undefined]")
   else if String.eqb "hasOwnProperty" "constructor" then Ok (VRef 5%positive)
   else if String.eqb "hasOwnProperty" "__proto__" then Exn (type_error "renderFn is not a function")
   else if String.eqb "hasOwnProperty" "toLocaleString" then
     Exn (type_error "Object.prototype.toLocaleString called on null or undefined")
   else if String.eqb "hasOwnProperty" "hasOwnProperty" || String.eqb "hasOwnProperty" "propertyIsEnumerable" then
     match to_string plain_world (VRef 5%positive) with
     | Ok _ => Exn (type_error "Cannot convert undefined or null to object")
     | Exn x => Exn x
     end
   else Exn (type_error "Cannot convert undefined or null to object"), plain_world).
Proof.
  assert (H1 : engine plain_world = Some ∅) by reflexivity.
  assert (H2 : cache_ok ∅) by (intros t r Hl; rewrite lookup_empty in Hl; discriminate).
  assert (H3 : proto_member "hasOwnProperty" <> None) by (vm_compute; discriminate).
  do 3 (split; [assumption|]).
  exact (template_inherited_names js_eval "hasOwnProperty" 5%positive plain_world ∅ H1 H2 H3).
Defined.
